(** * pseudoword: the shell interface of [pseudoword.cc], and the n-gram core

    The development has two parts.

    - The shell interface embeds [src/pseudoword.cc] as it is written: the
      [program_arguments] record, [application_main], [show_usage],
      [parse_args] (a loop around POSIX [getopt]) and [main].  Output
      streams are explicit state, C++ exceptions are an outcome of the
      computation, and [getopt]'s global variables are a small record that
      the loop threads.

    - The generation core (model building, sampling, compounding, the
      driver).  [application_main] is a stub, so that part of the
      repository does not exist as code; its definitions are modelled from
      the design text and are marked as such. *)

From Stdlib Require Import String Ascii ZArith NArith List Bool Arith Lia Floats.
From Equations Require Import Equations.
From Equations.Prop Require Import Logic.
Import ListNotations.

Local Open Scope string_scope.
Local Open Scope Z_scope.

(** ** Outcomes, exceptions and the output streams *)

(** The exception classes of <stdexcept> that the program can meet.  Each
    carries the text that [what()] returns. *)
Inductive exception : Type :=
| runtime_error (what_arg : string)
| invalid_argument (what_arg : string)
| out_of_range (what_arg : string).

Definition what (e : exception) : string :=
  match e with
  | runtime_error s | invalid_argument s | out_of_range s => s
  end.

(** A statement either completes, leaves by a thrown exception, or stops the
    process ([assert(false)], or [std::string] built from a null pointer). *)
Inductive outcome (A : Type) : Type :=
| Normal (a : A)
| Thrown (e : exception)
| Aborted.
Arguments Normal {A} a.
Arguments Thrown {A} e.
Arguments Aborted {A}.

(** What the process has written so far on [std::cout] and [std::cerr]. *)
Record world : Type := mkWorld { cout : string; cerr : string }.

(** Nothing written yet. *)
Definition quiet : world := mkWorld "" "".

Inductive ostream : Type := std_cout | std_cerr.

Definition put (out : ostream) (s : string) (w : world) : world :=
  match out with
  | std_cout => mkWorld (cout w ++ s) (cerr w)
  | std_cerr => mkWorld (cout w) (cerr w ++ s)
  end.

(** Computations over the streams that may throw. *)
Definition M (A : Type) : Type := world -> outcome A * world.

Definition ret {A} (a : A) : M A := fun w => (Normal a, w).

Definition bind {A B} (m : M A) (k : A -> M B) : M B :=
  fun w =>
    match m w with
    | (Normal a, w') => k a w'
    | (Thrown e, w') => (Thrown e, w')
    | (Aborted, w') => (Aborted, w')
    end.

Definition throw {A} (e : exception) : M A := fun w => (Thrown e, w).

Definition abort {A} : M A := fun w => (Aborted, w).

(** [out << s] *)
Definition write (out : ostream) (s : string) : M unit :=
  fun w => (Normal tt, put out s w).

(** [try { body } catch (std::exception& e) { handler }]: every exception of
    the program derives from [std::exception], so the handler takes them
    all.  An abort is not an exception and is not caught. *)
Definition try_catch {A} (body : M A) (handler : exception -> M A) : M A :=
  fun w =>
    match body w with
    | (Thrown e, w') => handler e w'
    | r => r
    end.

Declare Scope cpp_scope.
Delimit Scope cpp_scope with cpp.
Notation "x <- m ;; k" := (bind m (fun x => k))
  (at level 100, m at next level, right associativity) : cpp_scope.
Notation "m ;;; k" := (bind m (fun _ => k))
  (at level 100, right associativity) : cpp_scope.

Definition EXIT_SUCCESS : Z := 0.
Definition EXIT_FAILURE : Z := 1.

Definition newline : string := String (ascii_of_nat 10) EmptyString.

(** ** Characters as [int] *)

Definition char_code (c : ascii) : Z := Z.of_N (N_of_ascii c).

(** ** [std::stoi]

    [std::stoi(str)] is [strtol(str, &end, 10)] with two checks: no digit
    converted gives [std::invalid_argument], a value outside [int] gives
    [std::out_of_range].  [strtol] skips leading white space, reads an
    optional sign and then decimal digits, and ignores what follows.  [int]
    is taken to be 32 bits wide; [what()] is the text libstdc++ gives. *)

Definition INT_MAX : Z := 2147483647.
Definition INT_MIN : Z := -2147483648.

Definition isspace (c : ascii) : bool :=
  let n := N_of_ascii c in
  (n =? 32)%N || ((9 <=? n)%N && (n <=? 13)%N).

Definition isdigit (c : ascii) : bool :=
  let n := N_of_ascii c in (48 <=? n)%N && (n <=? 57)%N.

Fixpoint skip_spaces (s : string) : string :=
  match s with
  | String c s' => if isspace c then skip_spaces s' else s
  | EmptyString => s
  end.

(** Reads decimal digits onto the accumulator [acc]; the boolean tells
    whether at least one digit was read. *)
Fixpoint read_digits (s : string) (any : bool) (acc : Z) : bool * Z :=
  match s with
  | String c s' =>
      if isdigit c then read_digits s' true (10 * acc + (char_code c - 48))
      else (any, acc)
  | EmptyString => (any, acc)
  end.

Definition stoi (str : string) : exception + Z :=
  let s := skip_spaces str in
  let '(negative, s) :=
    match s with
    | String "-" s' => (true, s')
    | String "+" s' => (false, s')
    | _ => (false, s)
    end in
  let '(any, magnitude) := read_digits s false 0 in
  if negb any then inl (invalid_argument "stoi")
  else
    let v := if negative then - magnitude else magnitude in
    if (INT_MIN <=? v) && (v <=? INT_MAX) then inr v
    else inl (out_of_range "stoi").

(** ** POSIX [getopt] *)

(** How [getopt] treats an element that is not an option: POSIX stops the
    scan there; glibc, unless POSIXLY_CORRECT is set, skips it and goes on
    (it permutes [argv] so that the skipped elements end up last). *)
Inductive ordering : Type := REQUIRE_ORDER | PERMUTE.

(** The global state of [getopt].  [nextchar] is what is left to scan of the
    element under way, [rest] is [argv] after that element (after
    [argv[optind - 1]] once an element is finished), [optarg] and [optopt]
    are the variables of the same names. *)
Record getopt_state : Type := mkGetopt {
  nextchar : string;
  rest : list string;
  optarg : option string;
  optopt : Z
}.

Inductive optspec : Type := no_such_option | no_argument | required_argument.

(** The lookup of an option character in [optstring]: a character followed
    by a colon takes an argument; the colon itself is never an option. *)
Fixpoint find_option (c : ascii) (optstring : string) : optspec :=
  match optstring with
  | EmptyString => no_such_option
  | String d tl =>
      if Ascii.eqb d c then
        match tl with
        | String ":" _ => required_argument
        | _ => no_argument
        end
      else find_option c tl
  end.

Definition lookup_option (c : ascii) (optstring : string) : optspec :=
  if Ascii.eqb c ":" then no_such_option else find_option c optstring.

(** An element is an option element when it starts with a dash and has
    something after it. *)
Definition is_option_element (a : string) : bool :=
  match a with
  | String "-" (String _ _) => true
  | _ => false
  end.

Fixpoint skip_nonoptions (l : list string) : list string :=
  match l with
  | a :: l' => if is_option_element a then l else skip_nonoptions l'
  | [] => []
  end.

(** A leading colon in [optstring] asks for [':'] rather than ['?'] when an
    argument is missing (and for silence on [stderr]). *)
Definition missing_code (optstring : string) : Z :=
  match optstring with
  | String ":" _ => char_code ":"
  | _ => char_code "?"
  end.

(** Scans the option character [c]; [cs] is what follows it in its element
    and [l] is [argv] after that element. *)
Definition scan_option (optstring : string) (c : ascii) (cs : string)
    (l : list string) : Z * getopt_state :=
  match lookup_option c optstring with
  | no_such_option => (char_code "?", mkGetopt cs l None (char_code c))
  | no_argument => (char_code c, mkGetopt cs l None 0)
  | required_argument =>
      match cs, l with
      | String _ _, _ => (char_code c, mkGetopt "" l (Some cs) 0)
      | EmptyString, a :: l' => (char_code c, mkGetopt "" l' (Some a) 0)
      | EmptyString, [] =>
          (missing_code optstring, mkGetopt "" [] None (char_code c))
      end
  end.

(** The first part of a call: where the next option character is.  When
    an element is under way it is the next character of it; otherwise the
    next element is taken, and the scan is over ([inl], with the state it
    leaves) at the end of [argv], at [--], and at an element that is not an
    option. *)
Definition next_element (mode : ordering) (gs : getopt_state)
    : getopt_state + (ascii * string * list string) :=
  match nextchar gs with
  | String c cs => inr (c, cs, rest gs)
  | EmptyString =>
      let l := match mode with
               | PERMUTE => skip_nonoptions (rest gs)
               | REQUIRE_ORDER => rest gs
               end in
      match l with
      | [] => inl (mkGetopt "" [] None 0)
      | a :: l' =>
          if String.eqb a "--" then inl (mkGetopt "" l' None 0)
          else
            match a with
            | String "-" (String c cs) => inr (c, cs, l')
            | _ => inl (mkGetopt "" l None 0)
            end
      end
  end.

(** [int getopt(int argc, char* const argv[], const char* optstring)]; the
    result is the value returned and the variables as the call leaves
    them. *)
Definition getopt (mode : ordering) (optstring : string) (gs : getopt_state)
    : Z * getopt_state :=
  match next_element mode gs with
  | inl gs' => (-1, gs')
  | inr (c, cs, l) => scan_option optstring c cs l
  end.

(** [getopt] starts at [argv[1]]. *)
Definition getopt_init (argv : list string) : getopt_state :=
  mkGetopt "" (tl argv) None 0.

(** What is left to scan; every call that finds something makes it smaller. *)
Definition getopt_measure (gs : getopt_state) : nat :=
  String.length (nextchar gs)
  + fold_right (fun a n => S (String.length a + n)) 0%nat (rest gs).

(** ** The platform

    Two things the program takes from its C and C++ libraries are left open:
    the ordering policy of [getopt], and [std::stod], which gives the
    [double] for a text or throws [std::invalid_argument] or
    [std::out_of_range]. *)
Class Platform : Type := {
  getopt_ordering : ordering;
  stod : string -> exception + float
}.

(** ** Shell interface *)

Record program_arguments : Type := mkArgs {
  compound_probability : float;
  ngram_length : Z;
  number_of_words : Z;
  constrained_prefix : string;
  dictionary_filename : string;
  done : bool
}.

(** The default member initialisers of the struct. *)
Definition default_arguments : program_arguments :=
  {| compound_probability := 0%float;
     ngram_length := 3;
     number_of_words := 10;
     constrained_prefix := "";
     dictionary_filename := "";
     done := false |}.

Definition set_compound_probability (a : program_arguments) (v : float) :=
  mkArgs v (ngram_length a) (number_of_words a) (constrained_prefix a)
         (dictionary_filename a) (done a).
Definition set_ngram_length (a : program_arguments) (v : Z) :=
  mkArgs (compound_probability a) v (number_of_words a) (constrained_prefix a)
         (dictionary_filename a) (done a).
Definition set_number_of_words (a : program_arguments) (v : Z) :=
  mkArgs (compound_probability a) (ngram_length a) v (constrained_prefix a)
         (dictionary_filename a) (done a).
Definition set_constrained_prefix (a : program_arguments) (v : string) :=
  mkArgs (compound_probability a) (ngram_length a) (number_of_words a) v
         (dictionary_filename a) (done a).
Definition set_dictionary_filename (a : program_arguments) (v : string) :=
  mkArgs (compound_probability a) (ngram_length a) (number_of_words a)
         (constrained_prefix a) v (done a).
Definition set_done (a : program_arguments) (v : bool) :=
  mkArgs (compound_probability a) (ngram_length a) (number_of_words a)
         (constrained_prefix a) (dictionary_filename a) v.

(** [void application_main(program_arguments const& args) { (void) args; }] *)
Definition application_main (args : program_arguments) : M unit :=
  ret tt.

Definition usage_text : string :=
"usage: pseudoword [-cgnpwh] [DICT]

Generate random pseudowords.

Argument:
 DICT       Sample words from this file (default: /usr/share/dict/words)

Options:
 -c PCOMP   Probability of forming compound word (default: 0)
 -g N       N of N-gram model (default: 3)
 -n NWORDS  Number of generated pseudowords (default: 10)
 -p PREFIX  Constrain generated pseudowords to start with this prefix
 -w WIDTH   Width of output at which lines should be wrapped
 -h         Print this message and exit
".

Definition show_usage (out : ostream) : M unit :=
  write out usage_text.

Definition optstring : string := ":c:g:n:p:w:h".

(** A [std::string] built from [::optarg]; a null pointer there has no
    defined behaviour and is taken to stop the process. *)
Definition string_of_optarg (p : option string) : M string :=
  match p with
  | Some s => ret s
  | None => abort
  end.

(** A library conversion that returns or throws. *)
Definition convert {A} (r : exception + A) : M A :=
  match r with
  | inr v => ret v
  | inl e => throw e
  end.

Section Shell.
Context {P : Platform}.
Local Open Scope cpp_scope.

(** The body of the loop of [parse_args]: the [switch] on [optch], with
    [getopt]'s variables as the call left them. *)
Definition parse_case (optch : Z) (gs : getopt_state)
    (args : program_arguments) : M program_arguments :=
  if optch =? char_code "c" then
    s <- string_of_optarg (optarg gs) ;;
    v <- convert (stod s) ;;
    ret (set_compound_probability args v)
  else if optch =? char_code "g" then
    s <- string_of_optarg (optarg gs) ;;
    v <- convert (stoi s) ;;
    ret (set_ngram_length args v)
  else if optch =? char_code "n" then
    s <- string_of_optarg (optarg gs) ;;
    v <- convert (stoi s) ;;
    ret (set_number_of_words args v)
  else if optch =? char_code "p" then
    s <- string_of_optarg (optarg gs) ;;
    ret (set_constrained_prefix args s)
  else if optch =? char_code "w" then
    s <- string_of_optarg (optarg gs) ;;
    ret (set_dictionary_filename args s)
  else if optch =? char_code "h" then
    show_usage std_cout ;;;
    ret (set_done args true)
  else if optch =? char_code ":" then
    throw (runtime_error "missing argument")
  else if optch =? char_code "?" then
    throw (runtime_error "unknown option")
  else
    abort.

(** One turn of the [for] loop: the call of [getopt], the test against
    [-1], and the [switch].  [inl] is the end of the loop. *)
Definition parse_step (gs : getopt_state) (args : program_arguments)
    (w : world)
    : (outcome program_arguments * world)
      + (getopt_state * program_arguments * world) :=
  let '(optch, gs') := getopt getopt_ordering optstring gs in
  if optch =? -1 then inl (Normal args, w)
  else
    match parse_case optch gs' args w with
    | (Normal args', w') => inr (gs', args', w')
    | (Thrown e, w') => inl (Thrown e, w')
    | (Aborted, w') => inl (Aborted, w')
    end.
End Shell.

(** A call of [getopt] that does not return [-1] has consumed something. *)
Lemma skip_nonoptions_measure (l : list string) :
  (fold_right (fun a n => S (String.length a + n)) 0 (skip_nonoptions l)
   <= fold_right (fun a n => S (String.length a + n)) 0 l)%nat.
Proof.
  induction l as [|a l IH]; simpl; [lia|].
  destruct (is_option_element a); simpl; lia.
Qed.

Lemma scan_option_measure os c cs l optch gs' :
  scan_option os c cs l = (optch, gs') ->
  (getopt_measure gs'
   <= String.length cs
      + fold_right (fun a n => S (String.length a + n)) 0 l)%nat.
Proof.
  unfold scan_option, getopt_measure.
  destruct (lookup_option c os); [| |destruct cs; [destruct l|]];
    intros [= <- <-]; simpl; lia.
Qed.

Lemma next_element_measure mode gs c cs l :
  next_element mode gs = inr (c, cs, l) ->
  (String.length cs
   + fold_right (fun a n => S (String.length a + n)) 0 l
   < getopt_measure gs)%nat.
Proof.
  unfold next_element, getopt_measure.
  destruct (nextchar gs) as [|c0 cs0]; [|intros [= -> -> ->]; simpl; lia].
  set (l0 := match mode with
             | REQUIRE_ORDER => rest gs
             | PERMUTE => skip_nonoptions (rest gs)
             end).
  assert (Hl : (fold_right (fun a n => S (String.length a + n)) 0 l0
                <= fold_right (fun a n => S (String.length a + n)) 0
                     (rest gs))%nat).
  { subst l0. destruct mode; [lia | apply skip_nonoptions_measure]. }
  destruct l0 as [|a l']; [discriminate|].
  destruct (String.eqb a "--"); [discriminate|].
  destruct a as [|d a']; [discriminate|].
  destruct (Ascii.eqb_spec d "-") as [->|Hd].
  - destruct a' as [|c1 cs1]; [discriminate|].
    intros [= -> -> ->]. simpl in *. lia.
  - destruct d as [[] [] [] [] [] [] [] []]; try discriminate; congruence.
Qed.

Lemma getopt_measure_decreases mode os gs optch gs' :
  getopt mode os gs = (optch, gs') -> optch <> -1 ->
  (getopt_measure gs' < getopt_measure gs)%nat.
Proof.
  unfold getopt.
  destruct (next_element mode gs) as [g|[[c cs] l]] eqn:Hn;
    [intros [= <- _]; congruence|].
  intros H _. apply scan_option_measure in H.
  apply next_element_measure in Hn. lia.
Qed.

Section ShellLoop.
Context {P : Platform}.
Local Open Scope cpp_scope.

Lemma parse_step_decreases gs args w gs' args' w' :
  parse_step gs args w = inr (gs', args', w') ->
  (getopt_measure gs' < getopt_measure gs)%nat.
Proof.
  unfold parse_step.
  destruct (getopt getopt_ordering optstring gs) as [optch g] eqn:Hg.
  destruct (Z.eqb_spec optch (-1)) as [|Hne]; [discriminate|].
  destruct (parse_case optch g args w) as [[a|e|] w0]; try discriminate.
  intros [= <- _ _]. eapply getopt_measure_decreases; eauto.
Qed.

(** The [for] loop of [parse_args]: it turns until [getopt] returns [-1]
    or the [switch] throws. *)
Equations parse_loop (gs : getopt_state) (args : program_arguments)
    (w : world) : outcome program_arguments * world
    by wf (getopt_measure gs) lt :=
  parse_loop gs args w with inspect (parse_step gs args w) := {
    | exist _ (inl r) _ := r
    | exist _ (inr (gs', args', w')) Hstep := parse_loop gs' args' w' }.
Next Obligation.
  eapply parse_step_decreases; eauto.
Qed.

(** The states the loop comes to: the variables of [getopt], the local
    [args], and the streams, at the head of a turn. *)
Definition loop_state : Type := getopt_state * program_arguments * world.

Inductive reaches : loop_state -> loop_state -> Prop :=
| reaches_here s : reaches s s
| reaches_turn gs args w s' s'' :
    parse_step gs args w = inr s' -> reaches s' s'' ->
    reaches (gs, args, w) s''.

(** [program_arguments parse_args(int argc, char** argv)] *)
Definition parse_args (argv : list string) : M program_arguments :=
  fun w => parse_loop (getopt_init argv) default_arguments w.

(** [main], with the application it starts left open. *)
Definition main_with (app : program_arguments -> M unit)
    (argv : list string) : M Z :=
  try_catch
    (args <- parse_args argv ;;
     (if negb (done args) then app args else ret tt) ;;;
     ret EXIT_SUCCESS)
    (fun e =>
       write std_cerr "error: " ;;;
       write std_cerr (what e) ;;;
       write std_cerr newline ;;;
       ret EXIT_FAILURE).

(** [int main(int argc, char** argv)]; leaving [main] without a [return]
    is [return 0]. *)
Definition main (argv : list string) : M Z :=
  main_with application_main argv.
End ShellLoop.

(** A platform for the examples: glibc's ordering, and a [stod] for texts
    of one to fifteen decimal digits, where the value is an integer below
    2^53 and the conversion is exact; it declines every other text, which
    the examples do not use. *)
Definition all_digits (s : string) : bool :=
  forallb isdigit (list_ascii_of_string s).

Definition digits_stod (s : string) : exception + float :=
  if all_digits s && (1 <=? String.length s)%nat
     && (String.length s <=? 15)%nat
  then inr (PrimFloat.of_uint63 (Uint63.of_Z (snd (read_digits s false 0))))
  else inl (invalid_argument "stod").

#[local] Instance example_platform : Platform :=
  {| getopt_ordering := PERMUTE; stod := digits_stod |}.


(** ** The generation core

    [application_main] is empty: the repository has no code for the model,
    the sampler, the compound composer or the driver.  What follows is
    written from the design text, section by section, with its names. *)

(** Modelled from the spec: the absent symbol type.  The alphabet is the
    corpus characters plus two reserved boundary symbols, distinct from any
    corpus character. *)
Inductive symbol : Type := START | END | Char (c : ascii).

(** Modelled from the spec: the absent comparison of two symbols. *)
Definition symbol_eqb (a b : symbol) : bool :=
  match a, b with
  | START, START => true
  | END, END => true
  | Char c, Char d => Ascii.eqb c d
  | _, _ => false
  end.

(** Modelled from the spec: the absent Context type, the most recent
    history, oldest symbol first. *)
Definition Context : Type := list symbol.

(** Modelled from the spec: the absent comparison of two contexts. *)
Fixpoint context_eqb (a b : Context) : bool :=
  match a, b with
  | [], [] => true
  | x :: a', y :: b' => symbol_eqb x y && context_eqb a' b'
  | _, _ => false
  end.

(** Modelled from the spec: the absent Distribution type, next symbol to
    occurrence count, in the order of first occurrence. *)
Definition Distribution : Type := list (symbol * N).

(** Modelled from the spec: the absent total count of a distribution, the
    sum of all its entries. *)
Definition total (d : Distribution) : N :=
  fold_right (fun e t => (snd e + t)%N) 0%N d.

(** Modelled from the spec: the absent NGramModel type, a mapping from
    Context to Distribution with the order and the alphabet it was built
    from. *)
Record NGramModel : Type := mkModel {
  contexts : list (Context * Distribution);
  model_order : Z;
  alphabet : list ascii
}.

(** Modelled from the spec: the error taxonomy of its section 7. *)
Inductive error : Type := ConfigError | EmptyCorpusError | SamplingError.

(** Modelled from the spec: a GeneratedWord, the accumulated output of the
    sampler, symbol by symbol. *)
Definition GeneratedWord : Type := list symbol.

(** Modelled from the spec: the absent count update, [n] more occurrences
    of [s]. *)
Fixpoint add_count (s : symbol) (n : N) (d : Distribution) : Distribution :=
  match d with
  | [] => [(s, n)]
  | (s', k) :: d' =>
      if symbol_eqb s s' then (s', (k + n)%N) :: d'
      else (s', k) :: add_count s n d'
  end.

(** Modelled from the spec: the absent step of the builder that records one
    occurrence of [s] after the context [ctx]. *)
Fixpoint record_occurrence (ctx : Context) (s : symbol)
    (t : list (Context * Distribution)) : list (Context * Distribution) :=
  match t with
  | [] => [(ctx, [(s, 1%N)])]
  | (k, d) :: t' =>
      if context_eqb ctx k then (k, add_count s 1 d) :: t'
      else (k, d) :: record_occurrence ctx s t'
  end.

(** Modelled from the spec: the absent sliding of the context window, which
    drops the oldest symbol and appends the new one. *)
Definition slide (ctx : Context) (s : symbol) : Context :=
  tl (ctx ++ [s])%list.

(** Modelled from the spec: the absent scan of one corpus word; at every
    position [0..len(w)] the symbol there ([END] at [len(w)]) is counted
    after the [order - 1] symbols before it. *)
Fixpoint observe_word (w : list ascii) (ctx : Context)
    (t : list (Context * Distribution)) : list (Context * Distribution) :=
  match w with
  | [] => record_occurrence ctx END t
  | c :: w' =>
      observe_word w' (slide ctx (Char c)) (record_occurrence ctx (Char c) t)
  end.

(** Modelled from the spec: the absent context of the beginning of a word,
    filled entirely with [START]. *)
Definition start_context (order : Z) : Context :=
  repeat START (Z.to_nat (order - 1)).

(** Modelled from the spec: the absent [BuildModel].  An order below 1 is
    rejected before any corpus scan, an empty corpus gives
    [EmptyCorpusError], and the model is a fold over the corpus. *)
Definition BuildModel (corpus : list string) (order : Z)
    : error + NGramModel :=
  if order <? 1 then inl ConfigError
  else
    match corpus with
    | [] => inl EmptyCorpusError
    | _ =>
        inr {| contexts :=
                 fold_left
                   (fun t w =>
                      observe_word (list_ascii_of_string w)
                                   (start_context order) t)
                   corpus [];
               model_order := order;
               alphabet :=
                 nodup ascii_dec (flat_map list_ascii_of_string corpus) |}
    end.

(** Modelled from the spec: the absent backoff lookup.  The keys of the
    model all have [order - 1] symbols, so a shortened context stands for
    every key that ends with it and its distribution is the sum of theirs;
    a context with no occurrence has no distribution. *)
Definition ends_with (k ctx : Context) : bool :=
  context_eqb (skipn (length k - length ctx) k) ctx.

(** Modelled from the spec: the absent sum of two distributions, count by
    count. *)
Definition merge (d1 d2 : Distribution) : Distribution :=
  fold_left (fun d e => add_count (fst e) (snd e) d) d2 d1.

(** Modelled from the spec: the absent distribution of a context of any
    length up to [order - 1], summed over the keys that end with it. *)
Definition pooled (t : list (Context * Distribution)) (ctx : Context)
    : Distribution :=
  fold_left
    (fun d kd => if ends_with (fst kd) ctx then merge d (snd kd) else d)
    t [].

(** Modelled from the spec: the absent backoff policy.  While the context
    has no distribution its oldest symbol is dropped; when even the empty
    context has none, there is nothing to sample from. *)
Fixpoint resolve (t : list (Context * Distribution)) (ctx : Context)
    : option Distribution :=
  let d := pooled t ctx in
  if (0 <? total d)%N then Some d
  else
    match ctx with
    | [] => None
    | _ :: ctx' => resolve t ctx'
    end.

(** Modelled from the spec: the absent weighted choice, a walk along the
    cumulative counts with one uniform draw [u] in [[0, total)]. *)
Fixpoint pick (d : Distribution) (u : N) : option symbol :=
  match d with
  | [] => None
  | (s, n) :: d' => if (u <? n)%N then Some s else pick d' (u - n)%N
  end.

(** Modelled from the spec: the random source that every generation call
    takes as a parameter; one call of [next_draw] is one draw. *)
Class RandomSource (R : Type) : Type := {
  next_draw : R -> N * R
}.

(** Modelled from the spec: the implementation-chosen safety bound on the
    length of a word, and the number of attempts before [SamplingError]. *)
Class Limits : Type := {
  max_word_length : nat;
  max_attempts : nat
}.

(** Modelled from the spec: what one run of the sampler ends in. *)
Inductive attempt : Type :=
| Word (w : GeneratedWord)
| BoundHit
| NoDistribution.

(** Modelled from the spec: the absent uniform draw in [[0, total)], one
    draw of the source. *)
Definition draw_below {R} `{RandomSource R} (bound : N) (rng : R) : N * R :=
  let '(x, rng') := next_draw rng in ((x mod bound)%N, rng').

(** Modelled from the spec: the absent uniform draw in [[0, 1)] that decides
    with probability [p] whether a compound is formed; 53 bits of one draw
    of the source. *)
Definition draw_unit {R} `{RandomSource R} (rng : R) : float * R :=
  let '(x, rng') := next_draw rng in
  (PrimFloat.div
     (PrimFloat.of_uint63 (Uint63.of_Z (Z.of_N (x mod 9007199254740992)%N)))
     9007199254740992%float,
   rng').

(** Modelled from the spec: the text of an optional prefix; no prefix is
    the empty text, which constrains nothing. *)
Definition prefix_text (prefix : option string) : string :=
  match prefix with
  | Some s => s
  | None => ""
  end.

(** Modelled from the spec: the absent initial context, the last
    [order - 1] characters of the prefix, left-padded with [START]. *)
Definition initial_context (order : Z) (prefix : string) : Context :=
  let k := Z.to_nat (order - 1) in
  let l := (repeat START k ++ map Char (list_ascii_of_string prefix))%list in
  skipn (length l - k) l.

Section Generation.
Context {R : Type} {RS : RandomSource R} {L : Limits}.

(** Modelled from the spec: the absent Sampler (section 4.2, steps 1 to
    6).  [room] is how many more symbols the word may take before the
    safety bound is hit; [out] is the output buffer, pre-seeded with the
    prefix. *)
Fixpoint sample (m : NGramModel) (room : nat) (ctx : Context)
    (out : GeneratedWord) (rng : R) {struct room} : attempt * R :=
  match resolve (contexts m) ctx with
  | None => (NoDistribution, rng)
  | Some d =>
      let '(u, rng') := draw_below (total d) rng in
      match pick d u with
      | None => (NoDistribution, rng')
      | Some END => (Word out, rng')
      | Some s =>
          match room with
          | O => (BoundHit, rng')
          | S room' => sample m room' (slide ctx s) (out ++ [s])%list rng'
          end
      end
  end.

(** Modelled from the spec: the absent retry of a draw that hit the safety
    bound; [SamplingError] once [n] attempts are used up, or at once when
    the model has nothing to sample from. *)
Fixpoint attempts (m : NGramModel) (n room : nat) (ctx : Context)
    (out : GeneratedWord) (rng : R) : (error + GeneratedWord) * R :=
  match n with
  | O => (inl SamplingError, rng)
  | S n' =>
      match sample m room ctx out rng with
      | (Word w, rng') => (inr w, rng')
      | (BoundHit, rng') => attempts m n' room ctx out rng'
      | (NoDistribution, rng') => (inl SamplingError, rng')
      end
  end.

(** Modelled from the spec: the absent [GenerateOne(model, order, prefix,
    rng)]. *)
Definition GenerateOne (m : NGramModel) (order : Z)
    (prefix : option string) (rng : R) : (error + GeneratedWord) * R :=
  if order <? 1 then (inl ConfigError, rng)
  else
    let out := map Char (list_ascii_of_string (prefix_text prefix)) in
    attempts m max_attempts (max_word_length - length out)
             (initial_context order (prefix_text prefix)) out rng.

(** Modelled from the spec: the absent [GenerateCompound] (section 4.3).
    The probability is checked before the source is touched; at [p == 0]
    no draw decides anything and no second word is sampled; the required
    prefix applies to the first component only. *)
Definition GenerateCompound (m : NGramModel) (order : Z)
    (prefix : option string) (compoundProbability : float) (rng : R)
    : (error + GeneratedWord) * R :=
  if negb (PrimFloat.leb 0 compoundProbability
           && PrimFloat.leb compoundProbability 1)
  then (inl ConfigError, rng)
  else
    match GenerateOne m order prefix rng with
    | (inl e, rng1) => (inl e, rng1)
    | (inr first, rng1) =>
        if PrimFloat.eqb compoundProbability 0 then (inr first, rng1)
        else
          let '(u, rng2) := draw_unit rng1 in
          if PrimFloat.ltb u compoundProbability then
            match GenerateOne m order None rng2 with
            | (inl e, rng3) => (inl e, rng3)
            | (inr second, rng3) => (inr (first ++ second)%list, rng3)
            end
          else (inr first, rng2)
    end.

(** Modelled from the spec: the absent thin loop of the Generation Driver,
    [n] invocations of the composer, results in generation order. *)
Fixpoint invoke_times {A : Type} (compose : R -> A * R) (n : nat)
    (rng : R) : list A * R :=
  match n with
  | O => ([], rng)
  | S n' =>
      let '(x, rng1) := compose rng in
      let '(xs, rng2) := invoke_times compose n' rng1 in
      (x :: xs, rng2)
  end.

(** Modelled from the spec: the absent [GenerateMany] (section 4.4).  A
    negative count is a configuration error; each result is what that
    invocation of the composer returned. *)
Definition GenerateMany (m : NGramModel) (order : Z)
    (prefix : option string) (compoundProbability : float) (count : Z)
    (rng : R) : (error + list (error + GeneratedWord)) * R :=
  if count <? 0 then (inl ConfigError, rng)
  else
    let '(ws, rng') :=
      invoke_times (GenerateCompound m order prefix compoundProbability)
                   (Z.to_nat count) rng in
    (inr ws, rng').
End Generation.

(** A random source for the examples: a tape of draws, read front to back
    (and [0] for ever once it is used up). *)
#[local] Instance tape_source : RandomSource (list N) :=
  {| next_draw := fun t => match t with
                           | [] => (0%N, [])
                           | x :: t' => (x, t')
                           end |}.

#[local] Instance example_limits : Limits :=
  {| max_word_length := 64; max_attempts := 3 |}.

(** The corpus of the design text's concrete scenario, at order 2. *)
Definition cat_car_can : list string := ["cat"; "car"; "can"].

Definition cat_model : NGramModel :=
  match BuildModel cat_car_can 2 with
  | inr m => m
  | inl _ => mkModel [] 2 []
  end.

(** The characters of a text as symbols. *)
Definition word_of_string (s : string) : GeneratedWord :=
  map Char (list_ascii_of_string s).

(** The random source after [i] invocations of [compose], each starting
    where the one before left the source. *)
Definition source_after {R A : Type} (compose : R -> A * R) (i : nat)
    (rng : R) : R :=
  Nat.iter i (fun r => snd (compose r)) rng.

(** A distribution none of whose entries is [START], and a table of such
    distributions. *)
Definition start_free (d : Distribution) : Prop :=
  Forall (fun e => fst e <> START) d.

Definition start_free_table (t : list (Context * Distribution)) : Prop :=
  Forall (fun kd => start_free (snd kd)) t.

(** A symbol that is a character, not a boundary. *)
Definition is_character (s : symbol) : Prop := exists c, s = Char c.


(** A second platform for the examples, with the ordering of POSIX. *)
Definition posix_platform : Platform :=
  {| getopt_ordering := REQUIRE_ORDER; stod := digits_stod |}.

(** [k] copies of the usage text, one after the other. *)
Fixpoint usage_copies (k : nat) : string :=
  match k with
  | O => ""
  | S k' => usage_text ++ usage_copies k'
  end.

Section HelpOptions.
Context {P : Platform}.

(** Whether the call of [getopt] at this state returns ['h']. *)
Definition help_here (gs : getopt_state) : nat :=
  if fst (getopt getopt_ordering optstring gs) =? char_code "h"
  then 1%nat else 0%nat.

(** The number of calls of [getopt] that return ['h'] in the run of the
    loop from a state: the [-h] options the loop comes to. *)
Equations help_count (gs : getopt_state) (args : program_arguments)
    (w : world) : nat by wf (getopt_measure gs) lt :=
  help_count gs args w with inspect (parse_step gs args w) := {
    | exist _ (inl _) _ := help_here gs
    | exist _ (inr (gs', args', w')) Hstep :=
        (help_here gs + help_count gs' args' w')%nat }.
Next Obligation.
  eapply parse_step_decreases; eauto.
Qed.
End HelpOptions.

(** A text that does not go on with a decimal digit. *)
Definition no_digit_ahead (t : string) : bool :=
  match t with
  | String c _ => negb (isdigit c)
  | EmptyString => true
  end.

(** * Properties of the shell interface *)

Section ShellProperties.
Context {P : Platform}.

(** The loop satisfies the equation of the [for] statement. *)
Lemma parse_loop_turn gs args w :
  parse_loop gs args w =
  match parse_step gs args w with
  | inl r => r
  | inr (gs', args', w') => parse_loop gs' args' w'
  end.
Proof.
  rewrite parse_loop_equation_1. unfold parse_loop_unfold_clause_1.
  destruct (parse_step gs args w) as [r|[[gs' args'] w']]; reflexivity.
Qed.

Lemma reaches_parse_loop s s' :
  reaches s s' ->
  parse_loop (fst (fst s)) (snd (fst s)) (snd s)
  = parse_loop (fst (fst s')) (snd (fst s')) (snd s').
Proof.
  induction 1 as [s|gs args w [[gs' args'] w'] s'' Hstep _ IH];
    [reflexivity|].
  simpl in *. rewrite parse_loop_turn, Hstep. exact IH.
Qed.

(** Induction on the turns of the loop. *)
Lemma parse_loop_ind (Q : loop_state -> outcome program_arguments * world -> Prop) :
  (forall gs args w r, parse_step gs args w = inl r -> Q (gs, args, w) r) ->
  (forall gs args w s' r,
      parse_step gs args w = inr s' -> Q s' r -> Q (gs, args, w) r) ->
  forall gs args w, Q (gs, args, w) (parse_loop gs args w).
Proof.
  intros Hend Hturn gs.
  induction gs as [gs IH]
    using (well_founded_induction
             (Wf_nat.well_founded_ltof _ getopt_measure)).
  intros args w. rewrite parse_loop_turn.
  destruct (parse_step gs args w) as [r|[[gs' args'] w']] eqn:Hstep.
  - apply Hend, Hstep.
  - eapply Hturn; [exact Hstep|].
    apply IH. unfold Wf_nat.ltof. eapply parse_step_decreases, Hstep.
Qed.

(** *** What [getopt] returns, by the character it comes to *)

Lemma required_argument_chars (c : ascii) :
  lookup_option c optstring = required_argument <->
  In c (list_ascii_of_string "cgnpw").
Proof.
  destruct c as [[] [] [] [] [] [] [] []]; vm_compute;
    (split;
     [ intros H; try discriminate H; auto 10
     | intros H; try reflexivity;
       repeat (destruct H as [H|H]; try discriminate H); contradiction ]).
Qed.

Lemma unknown_option_chars (c : ascii) :
  lookup_option c optstring = no_such_option <->
  ~ In c (list_ascii_of_string "cgnpwh").
Proof.
  destruct c as [[] [] [] [] [] [] [] []]; vm_compute;
    (split;
     [ intros H; try discriminate H; intros H';
       repeat (destruct H' as [H'|H']; try discriminate H'); contradiction
     | intros H; try reflexivity; exfalso; apply H; auto 10 ]).
Qed.

Lemma getopt_missing_argument mode gs c :
  next_element mode gs = inr (c, "", []) ->
  lookup_option c optstring = required_argument ->
  getopt mode optstring gs
  = (char_code ":", mkGetopt "" [] None (char_code c)).
Proof.
  intros Hn Hc. unfold getopt, scan_option. rewrite Hn, Hc. reflexivity.
Qed.

Lemma getopt_unknown_option mode gs c cs l :
  next_element mode gs = inr (c, cs, l) ->
  lookup_option c optstring = no_such_option ->
  getopt mode optstring gs = (char_code "?", mkGetopt cs l None (char_code c)).
Proof.
  intros Hn Hc. unfold getopt, scan_option. rewrite Hn, Hc. reflexivity.
Qed.

Lemma getopt_help mode gs cs l :
  next_element mode gs = inr ("h"%char, cs, l) ->
  getopt mode optstring gs = (char_code "h", mkGetopt cs l None 0).
Proof.
  intros Hn. unfold getopt. rewrite Hn. reflexivity.
Qed.

(** An option character with an argument, and the argument [getopt] finds
    for it: the rest of the element, or else the next element. *)
Lemma getopt_with_argument mode gs c cs l s l' :
  next_element mode gs = inr (c, cs, l) ->
  lookup_option c optstring = required_argument ->
  (cs <> "" /\ s = cs /\ l' = l) \/ (cs = "" /\ l = s :: l') ->
  getopt mode optstring gs = (char_code c, mkGetopt "" l' (Some s) 0).
Proof.
  intros Hn Hc H. unfold getopt, scan_option. rewrite Hn, Hc.
  destruct H as [(Hcs & -> & ->)|(-> & ->)]; [|reflexivity].
  destruct cs; [congruence|reflexivity].
Qed.

(** An option element at the head of what is left of [argv]. *)
Lemma next_element_option mode c cs l oa oo :
  String.eqb (String "-" (String c cs)) "--" = false ->
  next_element mode (mkGetopt "" (String "-" (String c cs) :: l) oa oo)
  = inr (c, cs, l).
Proof.
  intros H. unfold next_element. cbn [nextchar rest].
  destruct mode; cbn [skip_nonoptions is_option_element]; rewrite H;
    reflexivity.
Qed.

Lemma skip_nonoptions_none (l : list string) :
  Forall (fun a => is_option_element a = false) l ->
  skip_nonoptions l = [].
Proof.
  induction 1 as [|a l Ha _ IH]; simpl; [reflexivity|].
  rewrite Ha. exact IH.
Qed.

Lemma next_element_no_option mode l oa oo :
  Forall (fun a => is_option_element a = false) l ->
  exists gs', next_element mode (mkGetopt "" l oa oo) = inl gs'.
Proof.
  intros H. unfold next_element. cbn [nextchar rest]. destruct mode.
  - destruct H as [|a l Ha _]; [eauto|].
    destruct (String.eqb a "--"); [eauto|].
    destruct a as [|d [|c cs]]; eauto.
    + destruct d as [[] [] [] [] [] [] [] []]; eauto.
    + destruct d as [[] [] [] [] [] [] [] []]; eauto. discriminate Ha.
  - rewrite skip_nonoptions_none by assumption. eauto.
Qed.

Lemma parse_step_end gs args w gs' :
  next_element getopt_ordering gs = inl gs' ->
  parse_step gs args w = inl (Normal args, w).
Proof.
  intros H. unfold parse_step, getopt. rewrite H. reflexivity.
Qed.

Lemma parse_loop_end gs args w gs' :
  next_element getopt_ordering gs = inl gs' ->
  parse_loop gs args w = (Normal args, w).
Proof.
  intros H. rewrite parse_loop_turn, (parse_step_end _ _ _ _ H).
  reflexivity.
Qed.

(** One turn of the loop at an option that takes the argument [s]. *)
Lemma parse_loop_argument gs args w c cs l s l' args' :
  next_element getopt_ordering gs = inr (c, cs, l) ->
  lookup_option c optstring = required_argument ->
  (cs <> "" /\ s = cs /\ l' = l) \/ (cs = "" /\ l = s :: l') ->
  parse_case (char_code c) (mkGetopt "" l' (Some s) 0) args w
  = (Normal args', w) ->
  parse_loop gs args w = parse_loop (mkGetopt "" l' (Some s) 0) args' w.
Proof.
  intros Hn Hc Hs Hcase. rewrite parse_loop_turn. unfold parse_step.
  rewrite (getopt_with_argument _ _ _ _ _ _ _ Hn Hc Hs).
  replace (char_code c =? -1) with false
    by (symmetry; apply Z.eqb_neq; unfold char_code; lia).
  rewrite Hcase. reflexivity.
Qed.

(** *** [parse_args] and [application_main] *)

(** C1. [application_main] is a stub: for every value of
    [program_arguments] it returns at once, with nothing written to either
    stream and no state changed.  So whenever [parse_args] returns, [main]
    ends with the streams as [parse_args] left them: the program generates
    nothing. *)
Theorem application_main_is_a_stub :
  (forall (args : program_arguments) (w : world),
      application_main args w = (Normal tt, w)) /\
  (forall argv w args w',
      parse_args argv w = (Normal args, w') ->
      main argv w = (Normal EXIT_SUCCESS, w')).
Proof.
  split; [reflexivity|].
  intros argv w args w' H. unfold main, main_with, try_catch, bind.
  rewrite H. destruct (done args); reflexivity.
Qed.

(** C2. In [parse_args] the argument of [-w] goes to
    [dictionary_filename] and the argument of [-p] goes to
    [constrained_prefix]; every other member is left as it was.  First for
    one turn of the loop, whatever came before, then for a whole command
    line. *)
Theorem parse_args_stores_w_and_p :
  (forall gs gs' args w,
      getopt getopt_ordering optstring gs = (char_code "w", gs') ->
      exists s,
        optarg gs' = Some s /\
        parse_step gs args w
        = inr (gs', set_dictionary_filename args s, w)) /\
  (forall gs gs' args w,
      getopt getopt_ordering optstring gs = (char_code "p", gs') ->
      exists s,
        optarg gs' = Some s /\
        parse_step gs args w
        = inr (gs', set_constrained_prefix args s, w)) /\
  (forall prog s t w,
      parse_args [prog; "-w"; s; "-p"; t] w
      = (Normal {| compound_probability := 0%float;
                   ngram_length := 3;
                   number_of_words := 10;
                   constrained_prefix := t;
                   dictionary_filename := s;
                   done := false |}, w)).
Proof.
  assert (Hopt : forall c gs gs',
             In c (list_ascii_of_string "cgnpw") ->
             getopt getopt_ordering optstring gs = (char_code c, gs') ->
             exists s, optarg gs' = Some s).
  { intros c gs gs' Hc. unfold getopt.
    destruct (next_element getopt_ordering gs) as [g|[[d cs] l]];
      [intros [= H _]; exfalso; unfold char_code in H; lia|].
    unfold scan_option.
    destruct (lookup_option d optstring) eqn:Hd.
    - intros [= H _]. exfalso.
      repeat (destruct Hc as [<-|Hc]; [discriminate H|]). exact Hc.
    - intros [= H <-]. exfalso.
      apply N2Z.inj, (f_equal ascii_of_N) in H.
      rewrite !ascii_N_embedding in H. subst d.
      apply required_argument_chars in Hc. congruence.
    - destruct cs; [destruct l|]; intros [= H <-]; simpl; eauto.
      exfalso. revert H. unfold missing_code, optstring.
      repeat (destruct Hc as [<-|Hc]; [discriminate|]). destruct Hc. }
  split; [|split].
  - intros gs gs' args w Hg.
    destruct (Hopt "w"%char gs gs') as [s Hs]; [simpl; auto 10|exact Hg|].
    exists s. split; [exact Hs|]. unfold parse_step. rewrite Hg.
    unfold parse_case. rewrite Hs. reflexivity.
  - intros gs gs' args w Hg.
    destruct (Hopt "p"%char gs gs') as [s Hs]; [simpl; auto 10|exact Hg|].
    exists s. split; [exact Hs|]. unfold parse_step. rewrite Hg.
    unfold parse_case. rewrite Hs. reflexivity.
  - intros prog s t w. unfold parse_args, getopt_init. cbn [tl].
    erewrite parse_loop_argument;
      [ | apply next_element_option; reflexivity | reflexivity
        | right; split; reflexivity | reflexivity ].
    erewrite parse_loop_argument;
      [ | apply next_element_option; reflexivity | reflexivity
        | right; split; reflexivity | reflexivity ].
    destruct (next_element_no_option getopt_ordering [] (Some t) 0
                (Forall_nil _)) as [g Hg].
    exact (parse_loop_end _ _ _ _ Hg).
Qed.

(** C3. With no option on the command line the parsed parameters are the
    defaults: compound probability 0, n-gram order 3, word count 10, no
    required prefix (and no dictionary file name, and [done] unset);
    nothing is printed. *)
Theorem parse_args_defaults (argv : list string) (w : world) :
  Forall (fun a => is_option_element a = false) (tl argv) ->
  parse_args argv w
  = (Normal {| compound_probability := 0%float;
               ngram_length := 3;
               number_of_words := 10;
               constrained_prefix := "";
               dictionary_filename := "";
               done := false |}, w).
Proof.
  intros H. unfold parse_args, getopt_init.
  destruct (next_element_no_option getopt_ordering (tl argv) None 0 H)
    as [gs' Hgs].
  exact (parse_loop_end _ _ _ _ Hgs).
Qed.

(** *** The cases of the [switch] *)


Lemma parse_case_g gs args w s v :
  optarg gs = Some s -> stoi s = inr v ->
  parse_case (char_code "g") gs args w
  = (Normal (set_ngram_length args v), w).
Proof.
  intros Ho Hs.
  unfold parse_case, bind, string_of_optarg, convert, ret, throw, abort.
  rewrite Ho. cbv beta iota. rewrite Hs. reflexivity.
Qed.

Lemma parse_case_n gs args w s v :
  optarg gs = Some s -> stoi s = inr v ->
  parse_case (char_code "n") gs args w
  = (Normal (set_number_of_words args v), w).
Proof.
  intros Ho Hs.
  unfold parse_case, bind, string_of_optarg, convert, ret, throw, abort.
  rewrite Ho. cbv beta iota. rewrite Hs. reflexivity.
Qed.

Lemma append_empty_r (s : string) : s ++ "" = s.
Proof. induction s as [|c s IH]; simpl; [|rewrite IH]; reflexivity. Qed.

Lemma append_assoc (a b c : string) : (a ++ b) ++ c = a ++ b ++ c.
Proof. induction a as [|x a IH]; simpl; [|rewrite IH]; reflexivity. Qed.

(** No case of the [switch] unsets [done] or writes on [std::cerr], and
    what is on [std::cout] stays there. *)
Lemma parse_case_effects optch gs args w r w' :
  parse_case optch gs args w = (r, w') ->
  cerr w' = cerr w /\
  (exists post, cout w' = cout w ++ post) /\
  (forall args', r = Normal args' -> done args = true ->
                 done args' = true).
Proof.
  assert (Hsame : cerr w = cerr w /\
                  (exists post, cout w = cout w ++ post))
    by (split; [reflexivity | exists ""; symmetry; apply append_empty_r]).
  unfold parse_case.
  repeat match goal with
         | |- context [if ?b then _ else _] => destruct b
         end;
    unfold bind, string_of_optarg, convert, show_usage, write, ret, throw,
      abort;
    repeat match goal with
           | |- context [match optarg gs with _ => _ end] =>
               destruct (optarg gs); cbv beta iota
           | |- context [match stod ?s with _ => _ end] =>
               destruct (stod s); cbv beta iota
           | |- context [match stoi ?s with _ => _ end] =>
               destruct (stoi s); cbv beta iota
           end;
    intros [= <- <-];
    try (split; [apply Hsame | split; [apply Hsame|]];
         intros args' [= <-]; auto; discriminate).
  cbn. split; [reflexivity|]. split; [eauto|]. intros args' [= <-]. auto.
Qed.

Lemma parse_loop_effects gs args w :
  cerr (snd (parse_loop gs args w)) = cerr w /\
  (exists post, cout (snd (parse_loop gs args w)) = cout w ++ post) /\
  (forall args', fst (parse_loop gs args w) = Normal args' ->
                 done args = true -> done args' = true).
Proof.
  apply (parse_loop_ind
           (fun s r =>
              cerr (snd r) = cerr (snd s) /\
              (exists post, cout (snd r) = cout (snd s) ++ post) /\
              (forall args', fst r = Normal args' ->
                             done (snd (fst s)) = true ->
                             done args' = true))).
  - intros g a w0 r. unfold parse_step.
    destruct (getopt getopt_ordering optstring g) as [optch g'].
    destruct (optch =? -1).
    + intros [= <-]. cbn. split; [reflexivity|].
      split; [exists ""; symmetry; apply append_empty_r|].
      intros args' [= <-]. auto.
    + destruct (parse_case optch g' a w0) as [[a'|e|] w1] eqn:Hc;
        intros [= <-]; cbn;
        destruct (parse_case_effects _ _ _ _ _ _ Hc) as (H1 & H2 & _);
        (split; [exact H1 | split; [exact H2 | discriminate]]).
  - intros g a w0 [[g' a'] w1] r. unfold parse_step.
    destruct (getopt getopt_ordering optstring g) as [optch g''].
    destruct (optch =? -1); [discriminate|].
    destruct (parse_case optch g'' a w0) as [[a''|e|] w2] eqn:Hc;
      intros [= <- <- <-]. cbn.
    destruct (parse_case_effects _ _ _ _ _ _ Hc) as (H1 & [p1 H2] & H3).
    intros (I1 & [p2 I2] & I3). split; [congruence|].
    split; [exists (p1 ++ p2); rewrite I2, H2; apply append_assoc|].
    intros args' Hr Hd. apply I3; [exact Hr|]. eapply H3; eauto.
Qed.

(** *** The [default] case and the null [optarg] are never met *)

Lemma no_argument_chars (c : ascii) :
  lookup_option c optstring = no_argument -> c = "h"%char.
Proof.
  destruct c as [[] [] [] [] [] [] [] []]; vm_compute;
    intros H; try discriminate H; reflexivity.
Qed.

Lemma getopt_returns mode gs optch gs' :
  getopt mode optstring gs = (optch, gs') ->
  optch = -1 \/ optch = char_code "?" \/ optch = char_code ":" \/
  optch = char_code "h" \/
  exists c s, In c (list_ascii_of_string "cgnpw") /\
              optch = char_code c /\ optarg gs' = Some s.
Proof.
  unfold getopt.
  destruct (next_element mode gs) as [g|[[c cs] l]];
    [intros [= <- _]; auto|].
  unfold scan_option. destruct (lookup_option c optstring) eqn:Hc.
  - intros [= <- _]. auto.
  - intros [= <- _]. apply no_argument_chars in Hc. subst c. auto 6.
  - apply required_argument_chars in Hc.
    destruct cs as [|c' cs]; [destruct l as [|a l]|]; intros [= <- <-].
    + auto.
    + do 4 right. exists c, a. auto.
    + do 4 right. exists c, (String c' cs). auto.
Qed.

Lemma parse_case_never_aborts mode gs optch gs' args w :
  getopt mode optstring gs = (optch, gs') -> optch <> -1 ->
  fst (parse_case optch gs' args w) <> Aborted.
Proof.
  intros Hg Hne.
  destruct (getopt_returns _ _ _ _ Hg)
    as [H|[->|[->|[->|(c & s & Hc & -> & Hs)]]]];
    [contradiction | discriminate | discriminate | discriminate |].
  unfold parse_case, bind, string_of_optarg, convert, ret, throw.
  rewrite Hs. cbv beta iota.
  repeat (destruct Hc as [<-|Hc];
          [ cbn [Z.eqb char_code N_of_ascii N_of_digits Z.of_N N.add N.mul
                 Pos.eqb Pos.add Pos.mul Pos.succ];
            try destruct (stod s); try destruct (stoi s); discriminate | ]).
  destruct Hc.
Qed.

(** [parse_args] returns or throws; it never stops the process. *)
Lemma parse_args_never_aborts argv w :
  fst (parse_args argv w) <> Aborted.
Proof.
  unfold parse_args.
  apply (parse_loop_ind (fun _ r => fst r <> Aborted)).
  - intros g a w0 r. unfold parse_step.
    destruct (getopt getopt_ordering optstring g) as [optch g'] eqn:Hg.
    destruct (Z.eqb_spec optch (-1)) as [|Hne]; [intros [= <-]; discriminate|].
    pose proof (parse_case_never_aborts _ _ _ _ a w0 Hg Hne) as Hc.
    destruct (parse_case optch g' a w0) as [[a'|e|] w1];
      intros [= <-]; cbn in *; [discriminate | exact Hc].
  - intros g a w0 s' r _ H. exact H.
Qed.

(** *** [main] *)

(** [main] always returns, with one of the two exit codes. *)
Lemma main_returns argv w :
  exists code w',
    main argv w = (Normal code, w') /\
    (code = EXIT_SUCCESS \/ code = EXIT_FAILURE).
Proof.
  pose proof (parse_args_never_aborts argv w) as Hna.
  unfold main, main_with, try_catch, bind.
  destruct (parse_args argv w) as [[a|e|] w1]; cbn in Hna.
  - destruct (done a); do 2 eexists; (split; [reflexivity | auto]).
  - do 2 eexists. split; [reflexivity | auto].
  - contradiction.
Qed.

Lemma main_with_thrown app argv w e w' :
  parse_args argv w = (Thrown e, w') ->
  main_with app argv w
  = (Normal EXIT_FAILURE,
     mkWorld (cout w') (cerr w' ++ "error: " ++ what e ++ newline)).
Proof.
  intros H. unfold main_with, try_catch, bind. rewrite H.
  unfold write, ret, put. cbn. rewrite !append_assoc. reflexivity.
Qed.

Lemma main_with_done app argv w args w' :
  parse_args argv w = (Normal args, w') -> done args = true ->
  main_with app argv w = (Normal EXIT_SUCCESS, w').
Proof.
  intros H Hd. unfold main_with, try_catch, bind. rewrite H, Hd.
  reflexivity.
Qed.

Lemma main_after_parse_args argv w args w' :
  parse_args argv w = (Normal args, w') ->
  main argv w = (Normal EXIT_SUCCESS, w').
Proof.
  intros H. unfold main, main_with, try_catch, bind. rewrite H.
  destruct (done args); reflexivity.
Qed.

Lemma reaches_parse_args argv w gs args w1 :
  reaches (getopt_init argv, default_arguments, w) (gs, args, w1) ->
  parse_args argv w = parse_loop gs args w1.
Proof. intros H. exact (reaches_parse_loop _ _ H). Qed.


(** C9. Whenever the loop comes to an option that takes an argument and
    has none ([-c], [-g], [-n], [-p], [-w] at the very end of the command
    line), [parse_args] throws [std::runtime_error("missing argument")];
    whenever it comes to a character that is no option, it throws
    [std::runtime_error("unknown option")].  Whatever [parse_args] throws,
    [main] writes [error: ], the text of [what()] and a new line on
    [std::cerr] and returns [EXIT_FAILURE]; the application is not
    started, whatever it is. *)
Theorem parse_args_reports_bad_options
    (app : program_arguments -> M unit) (argv : list string) (w : world) :
  (forall gs args w1 c,
      reaches (getopt_init argv, default_arguments, w) (gs, args, w1) ->
      next_element getopt_ordering gs = inr (c, "", []) ->
      In c (list_ascii_of_string "cgnpw") ->
      parse_args argv w = (Thrown (runtime_error "missing argument"), w1))
  /\
  (forall gs args w1 c cs l,
      reaches (getopt_init argv, default_arguments, w) (gs, args, w1) ->
      next_element getopt_ordering gs = inr (c, cs, l) ->
      ~ In c (list_ascii_of_string "cgnpwh") ->
      parse_args argv w = (Thrown (runtime_error "unknown option"), w1))
  /\
  (forall e w',
      parse_args argv w = (Thrown e, w') ->
      main_with app argv w
      = (Normal EXIT_FAILURE,
         mkWorld (cout w') (cerr w' ++ "error: " ++ what e ++ newline))).
Proof.
  split; [|split].
  - intros gs args w1 c Hr Hn Hc.
    rewrite (reaches_parse_args _ _ _ _ _ Hr), parse_loop_turn.
    unfold parse_step.
    rewrite (getopt_missing_argument _ _ _ Hn)
      by (apply required_argument_chars, Hc).
    reflexivity.
  - intros gs args w1 c cs l Hr Hn Hc.
    rewrite (reaches_parse_args _ _ _ _ _ Hr), parse_loop_turn.
    unfold parse_step.
    rewrite (getopt_unknown_option _ _ _ _ _ Hn)
      by (apply unknown_option_chars, Hc).
    reflexivity.
  - intros e w' H. exact (main_with_thrown app _ _ _ _ H).
Qed.

(** C10, as the code has it.  When the loop comes to [-h] it writes the
    usage text on [std::cout], sets [done] and goes on with the next
    option.  If [parse_args] then returns, [done] is still set, the usage
    text is on [std::cout], and [main] returns [EXIT_SUCCESS] without
    starting the application, whatever it is. *)
Theorem help_option_ends_main
    (app : program_arguments -> M unit) (argv : list string) (w : world)
    gs args w1 cs l :
  reaches (getopt_init argv, default_arguments, w) (gs, args, w1) ->
  next_element getopt_ordering gs = inr ("h"%char, cs, l) ->
  parse_step gs args w1
  = inr (mkGetopt cs l None 0, set_done args true,
         put std_cout usage_text w1) /\
  (forall args' w',
      parse_args argv w = (Normal args', w') ->
      done args' = true /\
      (exists post, cout w' = cout w1 ++ usage_text ++ post) /\
      main_with app argv w = (Normal EXIT_SUCCESS, w')).
Proof.
  intros Hr Hn.
  assert (Hstep : parse_step gs args w1
                  = inr (mkGetopt cs l None 0, set_done args true,
                         put std_cout usage_text w1)).
  { unfold parse_step. rewrite (getopt_help _ _ _ _ Hn). reflexivity. }
  split; [exact Hstep|].
  intros args' w' Hp.
  assert (Hl : parse_loop (mkGetopt cs l None 0) (set_done args true)
                          (put std_cout usage_text w1)
               = (Normal args', w')).
  { rewrite <- Hp, (reaches_parse_args _ _ _ _ _ Hr).
    rewrite (parse_loop_turn gs args w1), Hstep. reflexivity. }
  destruct (parse_loop_effects (mkGetopt cs l None 0) (set_done args true)
              (put std_cout usage_text w1)) as (_ & [post Hc] & Hd).
  rewrite Hl in Hc, Hd. cbn in Hc, Hd.
  assert (Hdone : done args' = true) by (apply Hd; reflexivity).
  split; [exact Hdone|].
  split; [exists post; rewrite Hc; apply append_assoc|].
  exact (main_with_done app _ _ _ _ Hp Hdone).
Qed.
End ShellProperties.

(** *** Concrete command lines *)

Lemma parse_args_stores_w_and_p_witness :
  (exists s,
      optarg (mkGetopt "" [] (Some "80") 0) = Some s /\
      parse_step (getopt_init ["pseudoword"; "-w80"]) default_arguments quiet
      = inr (mkGetopt "" [] (Some "80") 0,
             set_dictionary_filename default_arguments s, quiet)) /\
  (exists s,
      optarg (mkGetopt "" [] (Some "qu") 0) = Some s /\
      parse_step (getopt_init ["pseudoword"; "-p"; "qu"]) default_arguments
                 quiet
      = inr (mkGetopt "" [] (Some "qu") 0,
             set_constrained_prefix default_arguments s, quiet)) /\
  parse_args ["pseudoword"; "-w"; "80"; "-p"; "qu"] quiet
  = (Normal (mkArgs 0%float 3 10 "qu" "80" false), quiet).
Proof.
  destruct (@parse_args_stores_w_and_p example_platform) as (Hw & Hp & Hargv).
  split; [|split].
  - apply Hw. reflexivity.
  - apply Hp. reflexivity.
  - apply Hargv.
Defined.

Lemma application_main_is_a_stub_witness :
  application_main (mkArgs 1%float 4 20 "qu" "words" false) quiet
  = (Normal tt, quiet) /\
  main ["pseudoword"; "-c"; "1"; "-g"; "4"; "-n"; "20"; "-p"; "qu"] quiet
  = (Normal EXIT_SUCCESS, quiet).
Proof.
  destruct (@application_main_is_a_stub example_platform) as (Hstub & Hmain).
  split; [apply Hstub|].
  apply (Hmain _ _ (mkArgs 1%float 4 20 "qu" "" false) quiet).
  vm_compute. reflexivity.
Defined.

Lemma parse_args_defaults_witness :
  parse_args ["pseudoword"; "/usr/share/dict/words"] quiet
  = (Normal (mkArgs 0%float 3 10 "" "" false), quiet).
Proof.
  apply (@parse_args_defaults example_platform).
  repeat constructor.
Defined.


Lemma parse_args_reports_bad_options_witness :
  parse_args ["pseudoword"; "-hg"] quiet
  = (Thrown (runtime_error "missing argument"),
     put std_cout usage_text quiet) /\
  parse_args ["pseudoword"; "-p"; "-h"; "-x5"] quiet
  = (Thrown (runtime_error "unknown option"), quiet) /\
  main_with application_main ["pseudoword"; "-hg"] quiet
  = (Normal EXIT_FAILURE,
     mkWorld usage_text ("error: missing argument" ++ newline)).
Proof.
  destruct (@parse_args_reports_bad_options example_platform
              application_main ["pseudoword"; "-hg"] quiet)
    as (Hmissing & _ & Hmain).
  destruct (@parse_args_reports_bad_options example_platform
              application_main ["pseudoword"; "-p"; "-h"; "-x5"] quiet)
    as (_ & Hunknown & _).
  assert (H1 : parse_args ["pseudoword"; "-hg"] quiet
               = (Thrown (runtime_error "missing argument"),
                  put std_cout usage_text quiet)).
  { apply (Hmissing (mkGetopt "g" [] None 0) (set_done default_arguments true)
                    (put std_cout usage_text quiet) "g"%char).
    - eapply reaches_turn; [reflexivity | apply reaches_here].
    - reflexivity.
    - simpl. auto. }
  split; [exact H1|]. split.
  - apply (Hunknown (mkGetopt "" ["-x5"] (Some "-h") 0)
                    (set_constrained_prefix default_arguments "-h")
                    quiet "x"%char "5" []).
    + eapply reaches_turn; [reflexivity | apply reaches_here].
    + reflexivity.
    + simpl. intros H.
      repeat (destruct H as [H|H]; [discriminate H|]). exact H.
  - exact (Hmain _ _ H1).
Defined.

(** C10, as the claim has it, fails: after [-h] the loop goes on, a bad
    option after it makes [parse_args] throw, and [main] returns
    [EXIT_FAILURE] with the usage text on [std::cout] and the error on
    [std::cerr]. *)
Lemma help_then_bad_option_fails :
  next_element getopt_ordering (getopt_init ["pseudoword"; "-h"; "-x"])
  = inr ("h"%char, "", ["-x"]) /\
  main ["pseudoword"; "-h"; "-x"] quiet
  = (Normal EXIT_FAILURE,
     mkWorld usage_text ("error: unknown option" ++ newline)).
Proof. split; vm_compute; reflexivity. Qed.

Lemma help_option_ends_main_witness :
  parse_step (getopt_init ["pseudoword"; "-h"; "-n"; "5"]) default_arguments
             quiet
  = inr (mkGetopt "" ["-n"; "5"] None 0, set_done default_arguments true,
         put std_cout usage_text quiet) /\
  done (mkArgs 0%float 3 5 "" "" true) = true /\
  (exists post, usage_text = cout quiet ++ usage_text ++ post) /\
  main_with application_main ["pseudoword"; "-h"; "-n"; "5"] quiet
  = (Normal EXIT_SUCCESS, mkWorld usage_text "").
Proof.
  destruct (@help_option_ends_main example_platform application_main
              ["pseudoword"; "-h"; "-n"; "5"] quiet
              (getopt_init ["pseudoword"; "-h"; "-n"; "5"])
              default_arguments quiet "" ["-n"; "5"])
    as (Hstep & Hrest).
  - apply reaches_here.
  - reflexivity.
  - split; [exact Hstep|].
    apply (Hrest (mkArgs 0%float 3 5 "" "" true) (mkWorld usage_text "")).
    vm_compute. reflexivity.
Defined.

(** * Properties of the generation core *)

Section CoreProperties.
Context {R : Type} {RS : RandomSource R} {L : Limits}.

(** *** The driver *)

Lemma source_after_next {A} (f : R -> A * R) i rng :
  source_after f (S i) rng = source_after f i (snd (f rng)).
Proof. unfold source_after. apply Nat.iter_succ_r. Qed.

Lemma invoke_times_run {A} (f : R -> A * R) n :
  forall rng,
    length (fst (invoke_times f n rng)) = n /\
    snd (invoke_times f n rng) = source_after f n rng /\
    (forall i, (i < n)%nat ->
               nth_error (fst (invoke_times f n rng)) i
               = Some (fst (f (source_after f i rng)))).
Proof.
  induction n as [|n IH]; intros rng.
  - repeat split; intros; [lia].
  - cbn [invoke_times]. destruct (f rng) as [x r1] eqn:Hf.
    destruct (IH r1) as (Hlen & Hsrc & Hnth).
    destruct (invoke_times f n r1) as [xs r2]. cbn [fst snd length] in *.
    split; [lia|]. split.
    + rewrite source_after_next, Hf. exact Hsrc.
    + intros [|i] Hi.
      * cbn. rewrite Hf. reflexivity.
      * cbn [nth_error]. rewrite source_after_next, Hf.
        apply Hnth. lia.
Qed.

Lemma invoke_times_In {A} (f : R -> A * R) n :
  forall rng x,
    In x (fst (invoke_times f n rng)) -> exists r, x = fst (f r).
Proof.
  induction n as [|n IH]; intros rng x; [intros []|].
  cbn [invoke_times]. destruct (f rng) as [y r1] eqn:Hf.
  specialize (IH r1 x). destruct (invoke_times f n r1) as [xs r2].
  cbn in *. intros [<-|H]; [exists rng; rewrite Hf; reflexivity | auto].
Qed.

(** C4. For a count [N >= 0], [GenerateMany] is [N] invocations of the
    compound composer, one after the other on the random source: it
    returns [N] results, the [i]-th being what the [i]-th invocation
    returned, and leaves the source where the [N]-th invocation left it.
    For [N = 0] the result is empty and the source untouched, whatever
    the model. *)
Theorem GenerateMany_invokes_N_times
    (m : NGramModel) (order : Z) (prefix : option string) (p : float)
    (count : Z) (rng : R) :
  0 <= count ->
  (exists ws,
      GenerateMany m order prefix p count rng
      = (inr ws,
         source_after (GenerateCompound m order prefix p)
                      (Z.to_nat count) rng) /\
      length ws = Z.to_nat count /\
      forall i, (i < Z.to_nat count)%nat ->
                nth_error ws i
                = Some (fst (GenerateCompound m order prefix p
                               (source_after
                                  (GenerateCompound m order prefix p)
                                  i rng)))) /\
  (forall m' order' prefix' p',
      GenerateMany m' order' prefix' p' 0 rng = (inr [], rng)).
Proof.
  intros Hc. split; [|reflexivity].
  unfold GenerateMany.
  replace (count <? 0) with false by (symmetry; apply Z.ltb_ge; exact Hc).
  destruct (invoke_times_run (GenerateCompound m order prefix p)
              (Z.to_nat count) rng) as (Hlen & Hsrc & Hnth).
  destruct (invoke_times (GenerateCompound m order prefix p)
              (Z.to_nat count) rng) as [ws r'].
  cbn [fst snd] in *. exists ws. subst r'. auto.
Qed.

(** *** The sampler keeps what is in the output buffer *)

Lemma sample_extends m room :
  forall ctx out rng w rng',
    sample m room ctx out rng = (Word w, rng') ->
    exists tail, w = (out ++ tail)%list.
Proof.
  induction room as [|room IH]; intros ctx out rng w rng'; cbn [sample];
    destruct (resolve (contexts m) ctx) as [d|]; try discriminate;
    destruct (draw_below (total d) rng) as [u r1];
    destruct (pick d u) as [[| |c]|]; try discriminate;
    try (intros [= <- _]; exists []; symmetry; apply app_nil_r);
    intros H; apply IH in H; destruct H as [tail ->];
    eexists; rewrite <- app_assoc; reflexivity.
Qed.

Lemma attempts_extends m n :
  forall room ctx out rng w rng',
    attempts m n room ctx out rng = (inr w, rng') ->
    exists tail, w = (out ++ tail)%list.
Proof.
  induction n as [|n IH]; intros room ctx out rng w rng'; cbn [attempts];
    [discriminate|].
  destruct (sample m room ctx out rng) as [[w0| |] r1] eqn:Hs;
    try discriminate.
  - intros [= <- _]. eapply sample_extends, Hs.
  - apply IH.
Qed.

Lemma GenerateOne_starts_with_prefix m order prefix rng w rng' :
  GenerateOne m order (Some prefix) rng = (inr w, rng') ->
  exists tail, w = (word_of_string prefix ++ tail)%list.
Proof.
  unfold GenerateOne. destruct (order <? 1); [discriminate|].
  apply attempts_extends.
Qed.

Lemma GenerateCompound_starts_with_prefix m order prefix p rng w rng' :
  GenerateCompound m order (Some prefix) p rng = (inr w, rng') ->
  exists tail, w = (word_of_string prefix ++ tail)%list.
Proof.
  unfold GenerateCompound.
  destruct (negb _); [discriminate|].
  destruct (GenerateOne m order (Some prefix) rng) as [[e|first] r1] eqn:H1;
    [discriminate|].
  apply GenerateOne_starts_with_prefix in H1. destruct H1 as [t1 ->].
  destruct (PrimFloat.eqb p 0); [intros [= <- _]; eauto|].
  destruct (draw_unit r1) as [u r2].
  destruct (PrimFloat.ltb u p); [|intros [= <- _]; eauto].
  destruct (GenerateOne m order None r2) as [[e|second] r3];
    [discriminate|].
  intros [= <- _]. exists (t1 ++ second)%list. apply eq_sym, app_assoc.
Qed.

(** C5. Every word generated with a required prefix begins with exactly
    the characters of the prefix, whatever the model holds and whether or
    not the characters occur in it: the words of [GenerateOne], the words
    of [GenerateCompound], and each word among the results of
    [GenerateMany]. *)
Theorem generated_words_start_with_prefix
    (m : NGramModel) (order : Z) (prefix : string) (rng : R) :
  (forall w rng',
      GenerateOne m order (Some prefix) rng = (inr w, rng') ->
      exists tail, w = (word_of_string prefix ++ tail)%list) /\
  (forall p w rng',
      GenerateCompound m order (Some prefix) p rng = (inr w, rng') ->
      exists tail, w = (word_of_string prefix ++ tail)%list) /\
  (forall p count ws rng' w,
      GenerateMany m order (Some prefix) p count rng = (inr ws, rng') ->
      In (inr w) ws ->
      exists tail, w = (word_of_string prefix ++ tail)%list).
Proof.
  split; [|split].
  - intros w rng'. apply GenerateOne_starts_with_prefix.
  - intros p w rng'. apply GenerateCompound_starts_with_prefix.
  - intros p count ws rng' w. unfold GenerateMany.
    destruct (count <? 0); [discriminate|].
    destruct (invoke_times (GenerateCompound m order (Some prefix) p)
                (Z.to_nat count) rng) as [xs r'] eqn:Hi.
    intros [= <- _] Hin.
    destruct (invoke_times_In (GenerateCompound m order (Some prefix) p)
                (Z.to_nat count) rng (inr w)) as [r Hr];
      [rewrite Hi; exact Hin|].
    destruct (GenerateCompound m order (Some prefix) p r) as [x r2] eqn:Hg.
    cbn in Hr. subst x.
    eapply GenerateCompound_starts_with_prefix, Hg.
Qed.

(** A probability that compares equal to 0 (plus or minus zero) is in
    [[0, 1]]. *)
Lemma one_as_spec_float :
  Prim2SF 1 = S754_finite false 4503599627370496 (-52).
Proof. vm_compute. reflexivity. Qed.

Lemma zero_probability_is_valid (p : float) :
  PrimFloat.eqb p 0 = true ->
  PrimFloat.leb 0 p = true /\ PrimFloat.leb p 1 = true.
Proof.
  rewrite eqb_spec, !leb_spec, one_as_spec_float.
  change (Prim2SF 0) with (S754_zero false).
  unfold SFeqb, SFleb, SFcompare.
  destruct (Prim2SF p) as [s|s| |s m e];
    [auto | destruct s; discriminate | discriminate
     | destruct s; discriminate].
Qed.

(** C7. At a compound probability equal to 0, [GenerateCompound] is
    [GenerateOne]: the same result and the same random source afterwards,
    so the same draws and no second sampling, for every model, order,
    prefix and source. *)
Theorem GenerateCompound_zero_is_GenerateOne
    (m : NGramModel) (order : Z) (prefix : option string) (p : float)
    (rng : R) :
  PrimFloat.eqb p 0 = true ->
  GenerateCompound m order prefix p rng = GenerateOne m order prefix rng.
Proof.
  intros Hp. destruct (zero_probability_is_valid p Hp) as [Hlo Hhi].
  unfold GenerateCompound. rewrite Hlo, Hhi, Hp. cbn [negb andb].
  destruct (GenerateOne m order prefix rng) as [[e|w] r1]; reflexivity.
Qed.

(** *** The builder never counts [START] as a next symbol *)

Lemma add_count_start_free s n d :
  s <> START -> start_free d -> start_free (add_count s n d).
Proof.
  intros Hs. induction 1 as [|[s' k] d Hk Hd IH]; cbn [add_count].
  - repeat constructor. exact Hs.
  - destruct (symbol_eqb s s'); constructor; auto.
Qed.

Lemma record_occurrence_start_free ctx s t :
  s <> START -> start_free_table t ->
  start_free_table (record_occurrence ctx s t).
Proof.
  intros Hs. induction 1 as [|[k d] t Hd Ht IH]; cbn [record_occurrence].
  - repeat constructor. exact Hs.
  - destruct (context_eqb ctx k); constructor; auto.
    apply add_count_start_free; assumption.
Qed.

Lemma observe_word_start_free w :
  forall ctx t,
    start_free_table t -> start_free_table (observe_word w ctx t).
Proof.
  induction w as [|c w IH]; intros ctx t Ht; cbn [observe_word].
  - apply record_occurrence_start_free; [discriminate | exact Ht].
  - apply IH, record_occurrence_start_free; [discriminate | exact Ht].
Qed.

Lemma BuildModel_start_free corpus order m :
  BuildModel corpus order = inr m -> start_free_table (contexts m).
Proof.
  unfold BuildModel. destruct (order <? 1); [discriminate|].
  assert (H : forall l t,
             start_free_table t ->
             start_free_table
               (fold_left
                  (fun t w =>
                     observe_word (list_ascii_of_string w)
                                  (start_context order) t) l t)).
  { induction l as [|w l IH]; intros t Ht; cbn [fold_left]; [exact Ht|].
    apply IH, observe_word_start_free, Ht. }
  destruct corpus as [|w0 corpus]; [discriminate|].
  intros [= <-]. cbn [contexts]. apply (H (w0 :: corpus)). constructor.
Qed.

Lemma merge_start_free d2 :
  forall d1, start_free d1 -> start_free d2 -> start_free (merge d1 d2).
Proof.
  unfold merge. induction d2 as [|[s n] d2 IH]; intros d1 H1 H2;
    cbn [fold_left]; [exact H1|].
  inversion H2 as [|e d Hs Hd]; subst.
  apply IH; [apply add_count_start_free; assumption | exact Hd].
Qed.

Lemma pooled_start_free t ctx :
  start_free_table t -> start_free (pooled t ctx).
Proof.
  unfold pooled. generalize (@nil (symbol * N)) (Forall_nil (fun e : symbol * N => fst e <> START)).
  induction t as [|[k d] t IH]; intros acc Hacc Ht; cbn [fold_left];
    [exact Hacc|].
  inversion Ht as [|kd t' Hd Ht']; subst. cbn [fst snd] in *.
  apply IH; [|exact Ht'].
  destruct (ends_with k ctx); [apply merge_start_free; assumption|exact Hacc].
Qed.

Lemma resolve_start_free t ctx d :
  start_free_table t -> resolve t ctx = Some d -> start_free d.
Proof.
  intros Ht. induction ctx as [|s ctx IH]; cbn [resolve]; cbv zeta;
    match goal with
    | |- context [(0 <? ?x)%N] => destruct (0 <? x)%N
    end;
    try (intros [= <-]; apply pooled_start_free, Ht).
  exact IH.
Qed.

Lemma pick_start_free d :
  start_free d -> forall u s, pick d u = Some s -> s <> START.
Proof.
  induction 1 as [|[s' n] d Hs Hd IH]; intros u s; cbn [pick];
    [discriminate|].
  destruct (u <? n)%N; [intros [= <-]; exact Hs | apply IH].
Qed.

Lemma sample_characters m room :
  start_free_table (contexts m) ->
  forall ctx out rng w rng',
    Forall is_character out ->
    sample m room ctx out rng = (Word w, rng') ->
    Forall is_character w.
Proof.
  intros Hm.
  induction room as [|room IH]; intros ctx out rng w rng' Hout;
    cbn [sample];
    destruct (resolve (contexts m) ctx) as [d|] eqn:Hd; try discriminate;
    destruct (draw_below (total d) rng) as [u r1];
    destruct (pick d u) as [[| |c]|] eqn:Hp; try discriminate;
    try (intros [= <- _]; exact Hout);
    try (exfalso;
         exact (pick_start_free d (resolve_start_free _ _ _ Hm Hd)
                                u START Hp eq_refl)).
  apply IH. apply Forall_app. split; [exact Hout|].
  repeat constructor. exists c. reflexivity.
Qed.

Lemma attempts_characters m n :
  start_free_table (contexts m) ->
  forall room ctx out rng w rng',
    Forall is_character out ->
    attempts m n room ctx out rng = (inr w, rng') ->
    Forall is_character w.
Proof.
  intros Hm.
  induction n as [|n IH]; intros room ctx out rng w rng' Hout;
    cbn [attempts]; [discriminate|].
  destruct (sample m room ctx out rng) as [[w0| |] r1] eqn:Hs;
    try discriminate.
  - intros [= <- _]. eapply sample_characters; eauto.
  - apply IH, Hout.
Qed.

(** C6. A word that [GenerateOne] returns on a model that [BuildModel]
    built, for any corpus and order, with or without a prefix and on any
    random source, is made of characters only: neither [START] nor [END]
    occurs in it. *)
Theorem generated_words_have_no_boundary_symbol
    (corpus : list string) (order : Z) (m : NGramModel)
    (prefix : option string) (rng : R) (w : GeneratedWord) (rng' : R) :
  BuildModel corpus order = inr m ->
  GenerateOne m order prefix rng = (inr w, rng') ->
  Forall is_character w /\ ~ In START w /\ ~ In END w.
Proof.
  intros Hb Hg.
  assert (Hw : Forall is_character w).
  { revert Hg. unfold GenerateOne. destruct (order <? 1); [discriminate|].
    apply attempts_characters; [eapply BuildModel_start_free, Hb|].
    apply Forall_map, Forall_forall. intros c _. exists c. reflexivity. }
  split; [exact Hw|].
  rewrite Forall_forall in Hw.
  split; intros Hin; destruct (Hw _ Hin) as [c Hc]; discriminate Hc.
Qed.
End CoreProperties.

(** *** The corpus [cat], [car], [can] at order 2 *)

Lemma GenerateMany_invokes_N_times_witness :
  exists ws,
    GenerateMany cat_model 2 (Some "xc") 1%float 2
                 [5; 7; 4; 0; 1; 2; 3; 4; 5]%N
    = (inr ws,
       source_after (GenerateCompound cat_model 2 (Some "xc") 1%float) 2
                    [5; 7; 4; 0; 1; 2; 3; 4; 5]%N) /\
    length ws = 2%nat.
Proof.
  destruct (@GenerateMany_invokes_N_times (list N) tape_source example_limits
              cat_model 2 (Some "xc") 1%float 2
              [5; 7; 4; 0; 1; 2; 3; 4; 5]%N)
    as [[ws (Hrun & Hlen & _)] _]; [lia|].
  exists ws. split; [exact Hrun | exact Hlen].
Defined.

Lemma generated_words_start_with_prefix_witness :
  exists tail,
    [Char "x"; Char "c"; Char "a"; Char "r"]
    = (word_of_string "xc" ++ tail)%list.
Proof.
  destruct (@generated_words_start_with_prefix (list N) tape_source
              example_limits cat_model 2 "xc" [5; 7; 4; 0]%N) as (Hone & _).
  apply (Hone [Char "x"; Char "c"; Char "a"; Char "r"] [0%N]).
  vm_compute. reflexivity.
Defined.

Lemma generated_words_have_no_boundary_symbol_witness :
  Forall is_character [Char "x"; Char "a"; Char "r"] /\
  ~ In START [Char "x"; Char "a"; Char "r"] /\
  ~ In END [Char "x"; Char "a"; Char "r"].
Proof.
  apply (@generated_words_have_no_boundary_symbol (list N) tape_source
           example_limits cat_car_can 2 cat_model (Some "x")
           [5; 7; 4; 0]%N [Char "x"; Char "a"; Char "r"] [0%N]);
    vm_compute; reflexivity.
Defined.

Lemma GenerateCompound_zero_is_GenerateOne_witness :
  GenerateCompound cat_model 2 (Some "x") (-0)%float [5; 7; 4; 0]%N
  = GenerateOne cat_model 2 (Some "x") [5; 7; 4; 0]%N.
Proof.
  apply (@GenerateCompound_zero_is_GenerateOne (list N) tape_source
           example_limits cat_model 2 (Some "x") (-0)%float [5; 7; 4; 0]%N).
  reflexivity.
Defined.

(** The builder on the scenario of the design text: the contexts and counts
    it lists, and a word drawn from them. *)
Example cat_model_contexts :
  BuildModel cat_car_can 2
  = inr {| contexts :=
             [([START], [(Char "c", 3%N)]);
              ([Char "c"], [(Char "a", 3%N)]);
              ([Char "a"], [(Char "t", 1%N); (Char "r", 1%N); (Char "n", 1%N)]);
              ([Char "t"], [(END, 1%N)]);
              ([Char "r"], [(END, 1%N)]);
              ([Char "n"], [(END, 1%N)])];
           model_order := 2;
           alphabet := alphabet cat_model |}.
Proof. vm_compute. reflexivity. Qed.

Example cat_model_word :
  GenerateOne cat_model 2 None [5; 7; 4; 0]%N = (inr (word_of_string "car"), []).
Proof. vm_compute. reflexivity. Qed.

Example empty_corpus_is_an_error :
  BuildModel [] 2 = inl EmptyCorpusError /\
  BuildModel cat_car_can 0 = inl ConfigError.
Proof. split; reflexivity. Qed.

(** * More on the shell interface *)

Section ShellBehaviour.
Context {P : Platform}.

(** *** What a turn of the loop does to the streams and to [done] *)

Lemma parse_case_cases optch gs args w r w' :
  parse_case optch gs args w = (r, w') ->
  (w' = w /\ forall args', r = Normal args' -> done args' = done args) \/
  (w' = put std_cout usage_text w /\ r = Normal (set_done args true)).
Proof.
  unfold parse_case.
  repeat match goal with
         | |- context [if ?b then _ else _] => destruct b
         end;
    unfold bind, string_of_optarg, convert, show_usage, write, ret, throw,
      abort;
    repeat match goal with
           | |- context [match optarg gs with _ => _ end] =>
               destruct (optarg gs); cbv beta iota
           | |- context [match stod ?s with _ => _ end] =>
               destruct (stod s); cbv beta iota
           | |- context [match stoi ?s with _ => _ end] =>
               destruct (stoi s); cbv beta iota
           end;
    intros [= <- <-];
    first [ left; split;
            [reflexivity | intros args' H; inversion H; reflexivity]
          | right; split; reflexivity ].
Qed.

Lemma world_unchanged (w : world) :
  w = mkWorld (cout w ++ usage_copies 0) (cerr w).
Proof. destruct w as [o e]. cbn. rewrite append_empty_r. reflexivity. Qed.

Lemma parse_loop_output gs args w :
  exists k,
    snd (parse_loop gs args w)
    = mkWorld (cout w ++ usage_copies k) (cerr w) /\
    forall args', fst (parse_loop gs args w) = Normal args' ->
                  done args' = done args || (0 <? k)%nat.
Proof.
  apply (parse_loop_ind
           (fun s r =>
              exists k,
                snd r = mkWorld (cout (snd s) ++ usage_copies k)
                                (cerr (snd s)) /\
                forall args', fst r = Normal args' ->
                              done args' = done (snd (fst s)) || (0 <? k)%nat)).
  - intros g a w0 r. unfold parse_step.
    destruct (getopt getopt_ordering optstring g) as [optch g'].
    destruct (optch =? -1).
    + intros [= <-]. exists 0%nat. cbn [fst snd].
      split; [apply world_unchanged|].
      intros args' [= <-]. symmetry. apply orb_false_r.
    + destruct (parse_case optch g' a w0) as [[a'|e|] w1] eqn:Hc;
        intros [= <-];
        (destruct (parse_case_cases _ _ _ _ _ _ Hc) as [[-> _]|[_ H]];
         [|discriminate H]);
        exists 0%nat; cbn [fst snd];
        (split; [apply world_unchanged | discriminate]).
  - intros g a w0 [[g' a'] w1] r. unfold parse_step.
    destruct (getopt getopt_ordering optstring g) as [optch g''].
    destruct (optch =? -1); [discriminate|].
    destruct (parse_case optch g'' a w0) as [[a''|e|] w2] eqn:Hc;
      intros [= <- <- <-]. cbn [fst snd].
    intros (k & Hw & Hd).
    destruct (parse_case_cases _ _ _ _ _ _ Hc) as [[-> Hsame]|[-> [= ->]]].
    + exists k. split; [exact Hw|].
      intros args' Hr. rewrite (Hd _ Hr), (Hsame _ eq_refl). reflexivity.
    + exists (S k). split.
      * rewrite Hw. cbn [put cout cerr usage_copies].
        rewrite append_assoc. reflexivity.
      * intros args' Hr. rewrite (Hd _ Hr). cbn. symmetry. apply orb_true_r.
Qed.

(** *** What [parse_args] can end in *)

Lemma parse_case_outcomes mode gs optch gs' args w :
  getopt mode optstring gs = (optch, gs') -> optch <> -1 ->
  match fst (parse_case optch gs' args w) with
  | Normal _ => True
  | Thrown e =>
      e = runtime_error "missing argument" \/
      e = runtime_error "unknown option" \/
      exists s, stoi s = inl e \/ stod s = inl e
  | Aborted => False
  end.
Proof.
  intros Hg Hne.
  destruct (getopt_returns _ _ _ _ Hg)
    as [H|[->|[->|[->|(c & s & Hc & -> & Hs)]]]];
    [contradiction | cbn; auto | cbn; auto | exact I |].
  unfold parse_case, bind, string_of_optarg, convert, ret, throw.
  rewrite Hs. cbv beta iota.
  repeat (destruct Hc as [<-|Hc];
          [ cbn [Z.eqb char_code N_of_ascii N_of_digits Z.of_N N.add N.mul
                 Pos.eqb Pos.add Pos.mul Pos.succ];
            try destruct (stod s) eqn:Hd; try destruct (stoi s) eqn:Hi;
            cbn [fst]; eauto 6 | ]).
  destruct Hc.
Qed.

Lemma parse_loop_outcomes gs args w :
  match fst (parse_loop gs args w) with
  | Normal _ => True
  | Thrown e =>
      e = runtime_error "missing argument" \/
      e = runtime_error "unknown option" \/
      exists s, stoi s = inl e \/ stod s = inl e
  | Aborted => False
  end.
Proof.
  apply (parse_loop_ind
           (fun _ r =>
              match fst r with
              | Normal _ => True
              | Thrown e =>
                  e = runtime_error "missing argument" \/
                  e = runtime_error "unknown option" \/
                  exists s, stoi s = inl e \/ stod s = inl e
              | Aborted => False
              end)).
  - intros g a w0 r. unfold parse_step.
    destruct (getopt getopt_ordering optstring g) as [optch g'] eqn:Hg.
    destruct (Z.eqb_spec optch (-1)) as [|Hne]; [intros [= <-]; exact I|].
    pose proof (parse_case_outcomes _ _ _ _ a w0 Hg Hne) as Hc.
    destruct (parse_case optch g' a w0) as [[a'|e|] w1];
      intros [= <-]; exact Hc.
  - intros g a w0 s' r _ H. exact H.
Qed.

Lemma parse_args_prints_usage_only_aux (argv : list string) (w : world) :
  exists k,
    snd (parse_args argv w) = mkWorld (cout w ++ usage_copies k) (cerr w) /\
    forall args, fst (parse_args argv w) = Normal args ->
                 done args = (0 <? k)%nat.
Proof.
  unfold parse_args.
  destruct (parse_loop_output (getopt_init argv) default_arguments w)
    as (k & Hw & Hd).
  exists k. split; [exact Hw|]. intros args H. exact (Hd _ H).
Qed.

(** [parse_args] ends in one of four ways.  It returns; or it throws one of
    its own two errors; or it throws what [std::stoi] or [std::stod] threw
    on some text.  The [default] case with its [assert(false)] is never
    taken, and [::optarg] is never null where the [switch] reads it: every
    value [getopt] returns for ":c:g:n:p:w:h" has its [case]. *)
Theorem parse_args_returns_or_throws (argv : list string) (w : world) :
  match fst (parse_args argv w) with
  | Normal _ => True
  | Thrown e =>
      e = runtime_error "missing argument" \/
      e = runtime_error "unknown option" \/
      exists s, stoi s = inl e \/ stod s = inl e
  | Aborted => False
  end.
Proof. unfold parse_args. apply parse_loop_outcomes. Qed.

(** [main] always returns, and its exit code tells what is on the streams:
    [EXIT_SUCCESS] when [parse_args] returned, with nothing added to
    [std::cerr]; [EXIT_FAILURE] when [parse_args] threw, with the one line
    [error: ] and [what()] added to [std::cerr].  Either way [std::cout]
    has gained copies of the usage text and nothing else. *)
Theorem main_exit_code_and_streams (argv : list string) (w : world) :
  exists k,
    (exists args,
        fst (parse_args argv w) = Normal args /\
        main argv w
        = (Normal EXIT_SUCCESS,
           mkWorld (cout w ++ usage_copies k) (cerr w))) \/
    (exists e,
        fst (parse_args argv w) = Thrown e /\
        main argv w
        = (Normal EXIT_FAILURE,
           mkWorld (cout w ++ usage_copies k)
                   (cerr w ++ "error: " ++ what e ++ newline))).
Proof.
  pose proof (parse_args_never_aborts argv w) as Hna.
  unfold parse_args in Hna.
  destruct (parse_loop_output (getopt_init argv) default_arguments w)
    as (k & Hw & _).
  exists k. fold (parse_args argv w) in Hw, Hna.
  destruct (parse_args argv w) as [[a|e|] w1] eqn:Hp; cbn [fst snd] in *.
  - left. exists a. split; [reflexivity|].
    rewrite (main_after_parse_args _ _ _ _ Hp), Hw. reflexivity.
  - right. exists e. split; [reflexivity|].
    unfold main. rewrite (main_with_thrown _ _ _ _ _ Hp), Hw. reflexivity.
  - contradiction.
Qed.

(** *** Conversions that fail *)

Lemma parse_case_c_throws gs args w s e :
  optarg gs = Some s -> stod s = inl e ->
  parse_case (char_code "c") gs args w = (Thrown e, w).
Proof.
  intros Ho Hs.
  unfold parse_case, bind, string_of_optarg, convert, ret, throw, abort.
  rewrite Ho. cbv beta iota. rewrite Hs. reflexivity.
Qed.

Lemma parse_case_g_throws gs args w s e :
  optarg gs = Some s -> stoi s = inl e ->
  parse_case (char_code "g") gs args w = (Thrown e, w).
Proof.
  intros Ho Hs.
  unfold parse_case, bind, string_of_optarg, convert, ret, throw, abort.
  rewrite Ho. cbv beta iota. rewrite Hs. reflexivity.
Qed.

Lemma parse_case_n_throws gs args w s e :
  optarg gs = Some s -> stoi s = inl e ->
  parse_case (char_code "n") gs args w = (Thrown e, w).
Proof.
  intros Ho Hs.
  unfold parse_case, bind, string_of_optarg, convert, ret, throw, abort.
  rewrite Ho. cbv beta iota. rewrite Hs. reflexivity.
Qed.

(** [parse_args] catches nothing.  When the loop comes to [-g] or [-n] with
    an argument that [std::stoi] refuses, or to [-c] with one that
    [std::stod] refuses, the exception of the conversion leaves
    [parse_args] as it is; [main] catches it, writes [error: ] and its
    [what()] on [std::cerr] and returns [EXIT_FAILURE] without starting the
    application. *)
Theorem conversion_errors_are_reported
    (app : program_arguments -> M unit) (argv : list string) (w : world)
    gs args w1 c cs l s l' e :
  reaches (getopt_init argv, default_arguments, w) (gs, args, w1) ->
  next_element getopt_ordering gs = inr (c, cs, l) ->
  (cs <> "" /\ s = cs /\ l' = l) \/ (cs = "" /\ l = s :: l') ->
  ((c = "g"%char \/ c = "n"%char) /\ stoi s = inl e) \/
  (c = "c"%char /\ stod s = inl e) ->
  parse_args argv w = (Thrown e, w1) /\
  main_with app argv w
  = (Normal EXIT_FAILURE,
     mkWorld (cout w1) (cerr w1 ++ "error: " ++ what e ++ newline)).
Proof.
  intros Hr Hn Harg Hconv.
  assert (Hp : parse_args argv w = (Thrown e, w1)).
  { rewrite (reaches_parse_args _ _ _ _ _ Hr), parse_loop_turn.
    unfold parse_step.
    destruct Hconv as [[[-> | ->] He] | [-> He]];
      rewrite (getopt_with_argument _ _ _ _ _ _ _ Hn eq_refl Harg);
      cbn [Z.eqb char_code N_of_ascii N_of_digits Z.of_N N.add N.mul].
    - erewrite parse_case_g_throws; [reflexivity | reflexivity | exact He].
    - erewrite parse_case_n_throws; [reflexivity | reflexivity | exact He].
    - erewrite parse_case_c_throws; [reflexivity | reflexivity | exact He]. }
  split; [exact Hp | exact (main_with_thrown app _ _ _ _ Hp)].
Qed.

(** *** The application *)

(** When [parse_args] returns with [done] unset it has written nothing, and
    [main] starts the application on the parsed arguments.  The [try] block
    covers the application too: if it returns, [main] returns
    [EXIT_SUCCESS]; if it throws, [main] writes [error: ] and [what()] on
    [std::cerr] and returns [EXIT_FAILURE]. *)
Theorem main_starts_the_application
    (app : program_arguments -> M unit) (argv : list string) (w : world)
    (args : program_arguments) (w1 : world) :
  parse_args argv w = (Normal args, w1) ->
  done args = false ->
  w1 = w /\
  main_with app argv w
  = match app args w with
    | (Normal _, w2) => (Normal EXIT_SUCCESS, w2)
    | (Thrown e, w2) =>
        (Normal EXIT_FAILURE,
         mkWorld (cout w2) (cerr w2 ++ "error: " ++ what e ++ newline))
    | (Aborted, w2) => (Aborted, w2)
    end.
Proof.
  intros Hp Hd.
  assert (Hw : w1 = w).
  { destruct (parse_args_prints_usage_only_aux argv w) as (k & Hk & Hdone).
    rewrite Hp in Hk, Hdone. cbn [fst snd] in *.
    specialize (Hdone _ eq_refl). rewrite Hd in Hdone.
    destruct k; [|discriminate Hdone].
    rewrite Hk. symmetry. apply world_unchanged. }
  split; [exact Hw|]. subst w1.
  unfold main_with, try_catch, bind. rewrite Hp, Hd. cbn [negb].
  destruct (app args w) as [[[]|e|] w2]; cbn;
    rewrite ?append_assoc; reflexivity.
Qed.
End ShellBehaviour.

(** * More on how the options are read *)

(** What [strtol] leaves unread does not matter to [std::stoi]. *)
Lemma read_digits_app s t any acc :
  no_digit_ahead t = true ->
  read_digits (s ++ t) any acc = read_digits s any acc.
Proof.
  intros Ht. revert any acc.
  induction s as [|c s IH]; intros any acc; cbn [append read_digits].
  - destruct t as [|d t]; [reflexivity|]. cbn in Ht |- *.
    destruct (isdigit d); [discriminate Ht | reflexivity].
  - destruct (isdigit c); [apply IH | reflexivity].
Qed.

Lemma read_digits_cons_app c s t any acc :
  no_digit_ahead t = true ->
  read_digits (String c (s ++ t)) any acc = read_digits (String c s) any acc.
Proof. intros Ht. exact (read_digits_app (String c s) t any acc Ht). Qed.

Lemma skip_spaces_app s t :
  skip_spaces s <> "" -> skip_spaces (s ++ t) = skip_spaces s ++ t.
Proof.
  induction s as [|c s IH]; cbn [append skip_spaces]; [congruence|].
  destruct (isspace c); [exact IH | reflexivity].
Qed.

Lemma stoi_app s t v :
  stoi s = inr v -> no_digit_ahead t = true -> stoi (s ++ t) = inr v.
Proof.
  intros Hs Ht. unfold stoi in *.
  destruct (skip_spaces s) as [|c s1] eqn:Hsk; [discriminate Hs|].
  rewrite skip_spaces_app, Hsk by (rewrite Hsk; discriminate).
  cbn [append].
  destruct c as [[] [] [] [] [] [] [] []]; cbv beta iota in Hs |- *;
    rewrite ?read_digits_cons_app, ?read_digits_app by exact Ht;
    exact Hs.
Qed.

Section ShellOptions.
Context {P : Platform}.

Lemma option_is_not_a_dash c x :
  In c (list_ascii_of_string "cgnpw") ->
  String.eqb (String "-" (String c x)) "--" = false.
Proof.
  intros Hc. repeat (destruct Hc as [<-|Hc]; [reflexivity|]). destruct Hc.
Qed.

(** An option's argument may follow it in the same element or be the next
    element: for [-c], [-g], [-n], [-p] and [-w], [-oTEXT] and [-o TEXT]
    are parsed alike, whatever comes after. *)
Theorem attached_argument_is_the_same
    (prog : string) (c : ascii) (s : string) (l : list string) (w : world) :
  In c (list_ascii_of_string "cgnpw") -> s <> "" ->
  parse_args (prog :: String "-" (String c s) :: l) w
  = parse_args (prog :: String "-" (String c "") :: s :: l) w.
Proof.
  intros Hc Hs. unfold parse_args, getopt_init. cbn [tl].
  rewrite (parse_loop_turn
             (mkGetopt "" (String "-" (String c s) :: l) None 0)),
          (parse_loop_turn
             (mkGetopt "" (String "-" (String c "") :: s :: l) None 0)).
  unfold parse_step.
  rewrite (getopt_with_argument _ _ c s l s l
             (next_element_option _ _ _ _ _ _ (option_is_not_a_dash c s Hc))
             (proj2 (required_argument_chars c) Hc)
             (or_introl (conj Hs (conj eq_refl eq_refl)))).
  rewrite (getopt_with_argument _ _ c "" (s :: l) s l
             (next_element_option _ _ _ _ _ _ (option_is_not_a_dash c "" Hc))
             (proj2 (required_argument_chars c) Hc)
             (or_intror (conj eq_refl eq_refl))).
  reflexivity.
Qed.


(** An option given twice keeps the value given last: the [switch] assigns,
    it neither appends nor complains. *)
Theorem repeated_option_keeps_the_last
    (prog s1 s2 : string) (w : world) :
  parse_args [prog; "-p"; s1; "-p"; s2] w
  = (Normal (set_constrained_prefix default_arguments s2), w) /\
  parse_args [prog; "-w"; s1; "-w"; s2] w
  = (Normal (set_dictionary_filename default_arguments s2), w).
Proof.
  split; unfold parse_args, getopt_init; cbn [tl];
    (erewrite parse_loop_argument;
     [ | apply next_element_option; reflexivity | reflexivity
       | right; split; reflexivity | reflexivity ]);
    (erewrite parse_loop_argument;
     [ | apply next_element_option; reflexivity | reflexivity
       | right; split; reflexivity | reflexivity ]);
    destruct (next_element_no_option getopt_ordering [] (Some s2) 0
                (Forall_nil _)) as [g Hg];
    exact (parse_loop_end _ _ _ _ Hg).
Qed.

(** [std::stoi] is called without a position to report, so text after the
    number is not looked at: when [std::stoi] accepts [s] as [v], [-n] and
    [-g] accept [s] followed by anything that does not go on with a digit,
    and store the same [v]. *)
Theorem text_after_a_number_is_ignored
    (prog s t : string) (v : Z) (w : world) :
  stoi s = inr v -> no_digit_ahead t = true ->
  parse_args [prog; "-n"; s ++ t] w
  = (Normal (set_number_of_words default_arguments v), w) /\
  parse_args [prog; "-g"; s ++ t] w
  = (Normal (set_ngram_length default_arguments v), w).
Proof.
  intros Hs Ht. pose proof (stoi_app s t v Hs Ht) as Hst.
  split; unfold parse_args, getopt_init; cbn [tl].
  - erewrite parse_loop_argument;
      [ | apply next_element_option; reflexivity | reflexivity
        | right; split; reflexivity
        | eapply parse_case_n; [reflexivity | exact Hst] ].
    destruct (next_element_no_option getopt_ordering [] (Some (s ++ t)) 0
                (Forall_nil _)) as [g Hg].
    exact (parse_loop_end _ _ _ _ Hg).
  - erewrite parse_loop_argument;
      [ | apply next_element_option; reflexivity | reflexivity
        | right; split; reflexivity
        | eapply parse_case_g; [reflexivity | exact Hst] ].
    destruct (next_element_no_option getopt_ordering [] (Some (s ++ t)) 0
                (Forall_nil _)) as [g Hg].
    exact (parse_loop_end _ _ _ _ Hg).
Qed.
End ShellOptions.

(** * Where [dictionary_filename] comes from *)

Section DictionaryFilename.
Context {P : Platform}.

Lemma reaches_one_more s s1 :
  reaches s s1 ->
  forall s2,
    parse_step (fst (fst s1)) (snd (fst s1)) (snd s1) = inr s2 ->
    reaches s s2.
Proof.
  induction 1 as [[[gs a] w]|gs a w s' s'' Hstep _ IH]; intros s2 H2.
  - cbn in H2. eapply reaches_turn; [exact H2 | apply reaches_here].
  - eapply reaches_turn; [exact Hstep | apply IH, H2].
Qed.

(** A turn of the loop leaves [dictionary_filename] alone, unless the
    option it came to is [-w]. *)
Lemma parse_step_dictionary_filename gs a w gs' a' w' :
  parse_step gs a w = inr (gs', a', w') ->
  dictionary_filename a' = dictionary_filename a \/
  exists cs l s l',
    next_element getopt_ordering gs = inr ("w"%char, cs, l) /\
    ((cs <> "" /\ s = cs /\ l' = l) \/ (cs = "" /\ l = s :: l')) /\
    dictionary_filename a' = s.
Proof.
  unfold parse_step, getopt.
  destruct (next_element getopt_ordering gs) as [g|[[c cs] l]] eqn:Hn;
    [discriminate|].
  unfold scan_option. destruct (lookup_option c optstring) eqn:Hc.
  - intros H. vm_compute in H. discriminate H.
  - apply no_argument_chars in Hc. subst c.
    intros [= _ <- _]. left. reflexivity.
  - apply required_argument_chars in Hc.
    assert (Harg : (cs = "" /\ l = []) \/
                   exists s l',
                     (match cs, l with
                      | String _ _, _ =>
                          (char_code c, mkGetopt "" l (Some cs) 0)
                      | EmptyString, a0 :: l0 =>
                          (char_code c, mkGetopt "" l0 (Some a0) 0)
                      | EmptyString, [] =>
                          (missing_code optstring,
                           mkGetopt "" [] None (char_code c))
                      end) = (char_code c, mkGetopt "" l' (Some s) 0) /\
                     ((cs <> "" /\ s = cs /\ l' = l) \/
                      (cs = "" /\ l = s :: l'))).
    { destruct cs as [|c' cs']; [destruct l as [|a0 l0]|].
      - left. split; reflexivity.
      - right. exists a0, l0. split; [reflexivity|]. right. split; reflexivity.
      - right. exists (String c' cs'), l. split; [reflexivity|].
        left. repeat split. discriminate. }
    destruct Harg as [[-> ->]|(s & l' & -> & Harg)].
    + intros H. vm_compute in H. discriminate H.
    + unfold parse_case, bind, string_of_optarg, convert, ret, throw.
      cbn [optarg].
      repeat (destruct Hc as [<-|Hc];
              [ cbn [Z.eqb char_code N_of_ascii N_of_digits Z.of_N N.add
                     N.mul Pos.eqb Pos.add Pos.mul Pos.succ];
                try destruct (stod s); try destruct (stoi s);
                intros [= _ <- _];
                first [ left; reflexivity
                      | right; exists cs, l, s, l'; auto ] | ]).
      destruct Hc.
Qed.

Lemma parse_loop_dictionary_filename argv w gs a w0 :
  reaches (getopt_init argv, default_arguments, w) (gs, a, w0) ->
  forall args,
    fst (parse_loop gs a w0) = Normal args ->
    dictionary_filename args = dictionary_filename a \/
    exists gs1 a1 w1 cs l s l',
      reaches (getopt_init argv, default_arguments, w) (gs1, a1, w1) /\
      next_element getopt_ordering gs1 = inr ("w"%char, cs, l) /\
      ((cs <> "" /\ s = cs /\ l' = l) \/ (cs = "" /\ l = s :: l')) /\
      dictionary_filename args = s.
Proof.
  apply (parse_loop_ind
           (fun s r =>
              reaches (getopt_init argv, default_arguments, w) s ->
              forall args,
                fst r = Normal args ->
                dictionary_filename args = dictionary_filename (snd (fst s))
                \/
                exists gs1 a1 w1 cs l s' l',
                  reaches (getopt_init argv, default_arguments, w)
                          (gs1, a1, w1) /\
                  next_element getopt_ordering gs1 = inr ("w"%char, cs, l) /\
                  ((cs <> "" /\ s' = cs /\ l' = l) \/
                   (cs = "" /\ l = s' :: l')) /\
                  dictionary_filename args = s')).
  - intros g a0 w1 r Hstep _ args. revert Hstep. unfold parse_step.
    destruct (getopt getopt_ordering optstring g) as [optch g'].
    destruct (optch =? -1).
    + intros [= <-] [= <-]. left. reflexivity.
    + destruct (parse_case optch g' a0 w1) as [[a'|e|] w2];
        intros [= <-]; discriminate.
  - intros g a0 w1 [[g' a'] w2] r Hstep IH Hr args Hargs.
    assert (Hr' : reaches (getopt_init argv, default_arguments, w)
                          (g', a', w2))
      by exact (reaches_one_more _ _ Hr _ Hstep).
    destruct (IH Hr' args Hargs) as [Hsame|Hw]; [|right; exact Hw].
    cbn [fst snd] in *.
    destruct (parse_step_dictionary_filename _ _ _ _ _ _ Hstep)
      as [Hkeep|(cs & l & s & l' & Hn & Harg & Hs)].
    + left. congruence.
    + right. exists g, a0, w1, cs, l, s, l'. repeat split; auto. congruence.
Qed.

(** The usage text promises an operand DICT, but [parse_args] never looks
    at operands: in what it returns, [dictionary_filename] is empty unless
    the loop came to a [-w], and then it is the argument of a [-w]. *)
Theorem dictionary_filename_comes_from_w
    (argv : list string) (w : world) (args : program_arguments)
    (w' : world) :
  parse_args argv w = (Normal args, w') ->
  dictionary_filename args = "" \/
  exists gs1 a1 w1 cs l s l',
    reaches (getopt_init argv, default_arguments, w) (gs1, a1, w1) /\
    next_element getopt_ordering gs1 = inr ("w"%char, cs, l) /\
    ((cs <> "" /\ s = cs /\ l' = l) \/ (cs = "" /\ l = s :: l')) /\
    dictionary_filename args = s.
Proof.
  intros Hp.
  apply (parse_loop_dictionary_filename argv w (getopt_init argv)
           default_arguments w (reaches_here _)).
  unfold parse_args in Hp. rewrite Hp. reflexivity.
Qed.
End DictionaryFilename.

(** *** More concrete command lines *)

Lemma conversion_errors_are_reported_witness :
  parse_args ["pseudoword"; "-h"; "-g"; "abc"] quiet
  = (Thrown (invalid_argument "stoi"), put std_cout usage_text quiet) /\
  main_with application_main ["pseudoword"; "-h"; "-g"; "abc"] quiet
  = (Normal EXIT_FAILURE, mkWorld usage_text ("error: stoi" ++ newline)).
Proof.
  apply (@conversion_errors_are_reported example_platform application_main
           ["pseudoword"; "-h"; "-g"; "abc"] quiet
           (mkGetopt "" ["-g"; "abc"] None 0)
           (set_done default_arguments true)
           (put std_cout usage_text quiet)
           "g"%char "" ["abc"] "abc" [] (invalid_argument "stoi")).
  - eapply reaches_turn; [reflexivity | apply reaches_here].
  - reflexivity.
  - right. split; reflexivity.
  - left. split; [left; reflexivity | reflexivity].
Defined.

Lemma main_starts_the_application_witness :
  quiet = quiet /\
  main_with (fun _ => throw (runtime_error "no dictionary"))
            ["pseudoword"; "-n"; "3"] quiet
  = (Normal EXIT_FAILURE, mkWorld "" ("error: no dictionary" ++ newline)).
Proof.
  apply (@main_starts_the_application example_platform
           (fun _ => throw (runtime_error "no dictionary"))
           ["pseudoword"; "-n"; "3"] quiet
           (mkArgs 0%float 3 3 "" "" false) quiet);
    vm_compute; reflexivity.
Defined.

Lemma attached_argument_is_the_same_witness :
  parse_args ["pseudoword"; "-n5"; "-h"] quiet
  = parse_args ["pseudoword"; "-n"; "5"; "-h"] quiet.
Proof.
  apply (@attached_argument_is_the_same example_platform "pseudoword"
           "n"%char "5" ["-h"] quiet).
  - simpl. auto 10.
  - discriminate.
Defined.


Lemma text_after_a_number_is_ignored_witness :
  parse_args ["pseudoword"; "-n"; "10abc"] quiet
  = (Normal (set_number_of_words default_arguments 10), quiet) /\
  parse_args ["pseudoword"; "-g"; "10abc"] quiet
  = (Normal (set_ngram_length default_arguments 10), quiet).
Proof.
  apply (@text_after_a_number_is_ignored example_platform "pseudoword"
           "10" "abc" 10 quiet); reflexivity.
Defined.

Lemma dictionary_filename_comes_from_w_witness :
  dictionary_filename (mkArgs 0%float 2 10 "" "" false) = "" \/
  exists gs1 a1 w1 cs l s l',
    reaches (getopt_init ["pseudoword"; "-g"; "2"; "mydict"],
             default_arguments, quiet) (gs1, a1, w1) /\
    next_element getopt_ordering gs1 = inr ("w"%char, cs, l) /\
    ((cs <> "" /\ s = cs /\ l' = l) \/ (cs = "" /\ l = s :: l')) /\
    dictionary_filename (mkArgs 0%float 2 10 "" "" false) = s.
Proof.
  apply (@dictionary_filename_comes_from_w example_platform
           ["pseudoword"; "-g"; "2"; "mydict"] quiet
           (mkArgs 0%float 2 10 "" "" false) quiet).
  vm_compute. reflexivity.
Defined.

(** * Operands *)

Section Operands.
Context {P : Platform}.

Lemma parse_loop_same_next gs1 gs2 args w :
  next_element getopt_ordering gs1 = next_element getopt_ordering gs2 ->
  parse_loop gs1 args w = parse_loop gs2 args w.
Proof.
  intros H. rewrite (parse_loop_turn gs1), (parse_loop_turn gs2).
  unfold parse_step, getopt. rewrite H. reflexivity.
Qed.

(** What an operand in front of the options does depends on the [getopt]
    of the platform, since [parse_args] leaves the ordering to it.  With
    glibc's ordering the operand is passed over and the options behind it
    are parsed as if it were not there; with the ordering of POSIX the scan
    stops at the operand and the options behind it are never seen. *)
Theorem operand_in_front_of_the_options
    (prog a : string) (l : list string) (w : world) :
  is_option_element a = false ->
  (getopt_ordering = PERMUTE ->
   parse_args (prog :: a :: l) w = parse_args (prog :: l) w) /\
  (getopt_ordering = REQUIRE_ORDER ->
   parse_args (prog :: a :: l) w = (Normal default_arguments, w)).
Proof.
  intros Ha. split; intros Hmode; unfold parse_args, getopt_init; cbn [tl].
  - apply parse_loop_same_next. unfold next_element. cbn [nextchar rest].
    rewrite Hmode. cbn [skip_nonoptions]. rewrite Ha. reflexivity.
  - assert (H : exists g,
               next_element getopt_ordering (mkGetopt "" (a :: l) None 0)
               = inl g).
    { unfold next_element. cbn [nextchar rest]. rewrite Hmode.
      destruct (String.eqb a "--"); [eauto|].
      destruct a as [|d [|c cs]]; eauto;
        destruct d as [[] [] [] [] [] [] [] []]; eauto; discriminate Ha. }
    destruct H as [g Hg]. exact (parse_loop_end _ _ _ _ Hg).
Qed.
End Operands.

Lemma operand_in_front_of_the_options_witness :
  @parse_args example_platform ["pseudoword"; "words"; "-p"; "qu"] quiet
  = @parse_args example_platform ["pseudoword"; "-p"; "qu"] quiet /\
  @parse_args posix_platform ["pseudoword"; "words"; "-p"; "qu"] quiet
  = (Normal default_arguments, quiet).
Proof.
  split.
  - apply (@operand_in_front_of_the_options example_platform "pseudoword"
             "words" ["-p"; "qu"] quiet); reflexivity.
  - apply (@operand_in_front_of_the_options posix_platform "pseudoword"
             "words" ["-p"; "qu"] quiet); reflexivity.
Defined.

(** * The copies of the usage text, counted *)

Section HelpCount.
Context {P : Platform}.

Lemma help_count_turn gs args w :
  help_count gs args w
  = (help_here gs
     + match parse_step gs args w with
       | inl _ => 0
       | inr (gs', args', w') => help_count gs' args' w'
       end)%nat.
Proof.
  rewrite help_count_equation_1. unfold help_count_unfold_clause_1.
  destruct (parse_step gs args w) as [r|[[gs' args'] w']];
    [symmetry; apply Nat.add_0_r | reflexivity].
Qed.

(** The [switch], by the value it is entered with: at ['h'] it writes the
    usage text once on [std::cout] and sets [done]; at any other value it
    writes nothing and leaves [done] as it was. *)
Lemma parse_case_by_code optch gs args w r w' :
  parse_case optch gs args w = (r, w') ->
  (optch = char_code "h" /\ w' = put std_cout usage_text w /\
   r = Normal (set_done args true)) \/
  (optch <> char_code "h" /\ w' = w /\
   forall args', r = Normal args' -> done args' = done args).
Proof.
  unfold parse_case.
  repeat match goal with
         | |- context [if ?a =? ?b then _ else _] =>
             destruct (Z.eqb_spec a b)
         end;
    unfold bind, string_of_optarg, convert, show_usage, write, ret, throw,
      abort;
    repeat match goal with
           | |- context [match optarg gs with _ => _ end] =>
               destruct (optarg gs); cbv beta iota
           | |- context [match stod ?s with _ => _ end] =>
               destruct (stod s); cbv beta iota
           | |- context [match stoi ?s with _ => _ end] =>
               destruct (stoi s); cbv beta iota
           end;
    intros [= <- <-];
    first [ left; split; [assumption | split; reflexivity]
          | right; split;
            [ first [assumption | subst optch; discriminate]
            | split;
              [reflexivity | intros args' H; inversion H; reflexivity] ] ].
Qed.

Lemma parse_loop_usage_copies gs args w :
  snd (parse_loop gs args w)
  = mkWorld (cout w ++ usage_copies (help_count gs args w)) (cerr w) /\
  forall args', fst (parse_loop gs args w) = Normal args' ->
                done args' = done args || (0 <? help_count gs args w)%nat.
Proof.
  apply (parse_loop_ind
           (fun s r =>
              snd r
              = mkWorld (cout (snd s)
                         ++ usage_copies
                              (help_count (fst (fst s)) (snd (fst s)) (snd s)))
                        (cerr (snd s)) /\
              forall args',
                fst r = Normal args' ->
                done args'
                = done (snd (fst s))
                  || (0 <? help_count (fst (fst s)) (snd (fst s)) (snd s))%nat)).
  - intros g a w0 r Hstep. cbn [fst snd].
    rewrite (help_count_turn g a w0), Hstep. revert Hstep.
    unfold parse_step, help_here.
    destruct (getopt getopt_ordering optstring g) as [optch g'].
    cbn [fst]. destruct (Z.eqb_spec optch (-1)) as [->|Hne].
    + intros [= <-]. cbn [fst snd Z.eqb char_code Nat.add usage_copies].
      split; [apply world_unchanged|].
      intros args' [= <-]. symmetry. apply orb_false_r.
    + destruct (parse_case optch g' a w0) as [[a'|e|] w1] eqn:Hc;
        intros [= <-];
        (destruct (parse_case_by_code _ _ _ _ _ _ Hc)
           as [(_ & _ & H)|(Hh & -> & _)]; [discriminate H|]);
        apply Z.eqb_neq in Hh; rewrite Hh; cbn [fst snd Nat.add];
        (split; [apply world_unchanged | discriminate]).
  - intros g a w0 [[g' a'] w1] r Hstep. cbn [fst snd].
    rewrite (help_count_turn g a w0), Hstep. revert Hstep.
    unfold parse_step, help_here.
    destruct (getopt getopt_ordering optstring g) as [optch g''].
    cbn [fst]. destruct (optch =? -1); [discriminate|].
    destruct (parse_case optch g'' a w0) as [[a''|e|] w2] eqn:Hc;
      intros [= <- <- <-] [Hw Hd].
    destruct (parse_case_by_code _ _ _ _ _ _ Hc)
      as [(-> & -> & [= ->])|(Hh & -> & Hsame)].
    + cbn [Z.eqb char_code N_of_ascii N_of_digits Z.of_N N.add N.mul
           Pos.eqb Nat.add usage_copies].
      split.
      * rewrite Hw. cbn [put cout cerr]. rewrite append_assoc. reflexivity.
      * intros args' Hr. rewrite (Hd _ Hr). cbn. symmetry. apply orb_true_r.
    + apply Z.eqb_neq in Hh. rewrite Hh. cbn [Nat.add].
      split; [exact Hw|].
      intros args' Hr. rewrite (Hd _ Hr), (Hsame _ eq_refl). reflexivity.
Qed.

(** [parse_args] writes nothing on [std::cerr], and on [std::cout] exactly
    one copy of the usage text for each [-h] the loop comes to (each call
    of [getopt] that returns ['h']) and nothing else, also when it ends by
    throwing.  When it returns, [done] is set exactly when the loop came to
    at least one [-h]. *)
Theorem parse_args_prints_usage_only (argv : list string) (w : world) :
  snd (parse_args argv w)
  = mkWorld (cout w
             ++ usage_copies
                  (help_count (getopt_init argv) default_arguments w))
            (cerr w) /\
  forall args,
    fst (parse_args argv w) = Normal args ->
    done args
    = (0 <? help_count (getopt_init argv) default_arguments w)%nat.
Proof.
  unfold parse_args.
  destruct (parse_loop_usage_copies (getopt_init argv) default_arguments w)
    as [Hw Hd].
  split; [exact Hw|]. intros args H. exact (Hd _ H).
Qed.
End HelpCount.

Lemma parse_args_prints_usage_only_witness :
  help_count (getopt_init ["pseudoword"; "-hh"; "-p"; "-h"; "-h"])
             default_arguments quiet = 3%nat /\
  snd (parse_args ["pseudoword"; "-hh"; "-p"; "-h"; "-h"] quiet)
  = mkWorld (usage_text ++ usage_text ++ usage_text) "" /\
  done (mkArgs 0%float 3 10 "-h" "" true) = true.
Proof.
  destruct (@parse_args_prints_usage_only example_platform
              ["pseudoword"; "-hh"; "-p"; "-h"; "-h"] quiet) as [Hw Hd].
  split; [vm_compute; reflexivity|]. split.
  - rewrite Hw. vm_compute. reflexivity.
  - rewrite (Hd (mkArgs 0%float 3 10 "-h" "" true));
      vm_compute; reflexivity.
Defined.

(** * No range is checked *)

Section NoRangeCheck.
Context {P : Platform}.


End NoRangeCheck.

